(* Shallow embedding of programs/airdrop/src/lib.rs (RNS-tracked Merkle
   airdrop) and proofs of its specification.

   Data:
   - u8 is a Z in [0, 256), u64 / usize a non-negative Z, i64 a Z in
     [-2^63, 2^63) whose `+` wraps (two's complement);
   - [u8; N] arrays (digests, pubkeys, residue arrays) are lists of bytes;
   - the `State` account is a record; the instructions are state-and-error
     computations over it (the `&mut ctx.accounts.state` they mutate in
     place), committed by the runtime only when they return Ok. *)

From Stdlib Require Import ZArith Lia.
From stdpp Require Import base list.
Import ListNotations.
Open Scope Z_scope.

(* ------------------------------------------------------------------ *)
(** * Keccak-256 ([solana_program::keccak::hash] / [hashv])            *)
(* ------------------------------------------------------------------ *)

Module Keccak.

Definition mask64 : Z := Z.ones 64.

Definition rotl64 (x n : Z) : Z :=
  Z.land (Z.lor (Z.shiftl x n) (Z.shiftr x (64 - n))) mask64.

(** Rotation offsets, lane [x + 5 * y]. *)
Definition rho_offsets : list Z :=
  [0; 1; 62; 28; 27;
   36; 44; 6; 55; 20;
   3; 10; 43; 25; 39;
   41; 45; 15; 21; 8;
   18; 2; 61; 56; 14].

Definition round_constants : list Z :=
  [0x0000000000000001; 0x0000000000008082; 0x800000000000808A;
   0x8000000080008000; 0x000000000000808B; 0x0000000080000001;
   0x8000000080008081; 0x8000000000008009; 0x000000000000008A;
   0x0000000000000088; 0x0000000080008009; 0x000000008000000A;
   0x000000008000808B; 0x800000000000008B; 0x8000000000008089;
   0x8000000000008003; 0x8000000000008002; 0x8000000000000080;
   0x000000000000800A; 0x800000008000000A; 0x8000000080008081;
   0x8000000000008080; 0x0000000080000001; 0x8000000080008008].

Definition lane (a : list Z) (x y : nat) : Z := nth (x + 5 * y) a 0.

Definition lanes_idx : list nat := seq 0 25.

Definition theta (a : list Z) : list Z :=
  let c x := Z.lxor (lane a x 0) (Z.lxor (lane a x 1)
               (Z.lxor (lane a x 2) (Z.lxor (lane a x 3) (lane a x 4)))) in
  let d x := Z.lxor (c ((x + 4) mod 5)%nat) (rotl64 (c ((x + 1) mod 5)%nat) 1) in
  map (fun i => Z.lxor (nth i a 0) (d (i mod 5)%nat)) lanes_idx.

(** B[y, 2x+3y] = rot(A[x, y]); read backwards: B[X, Y] comes from
    A[(X + 3Y) mod 5, X]. *)
Definition rho_pi (a : list Z) : list Z :=
  map (fun j =>
         let X := (j mod 5)%nat in
         let Y := (j / 5)%nat in
         let x := ((X + 3 * Y) mod 5)%nat in
         rotl64 (lane a x X) (nth (x + 5 * X) rho_offsets 0)) lanes_idx.

Definition chi (b : list Z) : list Z :=
  map (fun j =>
         let x := (j mod 5)%nat in
         let y := (j / 5)%nat in
         Z.lxor (lane b x y)
                (Z.ldiff (lane b ((x + 2) mod 5) y) (lane b ((x + 1) mod 5) y)))
      lanes_idx.

Definition iota (rc : Z) (a : list Z) : list Z :=
  match a with
  | [] => []
  | a0 :: rest => Z.lxor a0 rc :: rest
  end.

Definition keccak_f (a : list Z) : list Z :=
  fold_left (fun st rc => iota rc (chi (rho_pi (theta st)))) round_constants a.

(** Little-endian lanes. *)
Definition le_value (bs : list Z) : Z :=
  fold_right (fun b acc => b + 256 * acc) 0 bs.

Definition lane_bytes (l : Z) : list Z :=
  map (fun i => Z.land (Z.shiftr l (8 * Z.of_nat i)) 255) (seq 0 8).

Fixpoint bytes_to_lanes (n : nat) (bs : list Z) : list Z :=
  match n with
  | O => []
  | S n' => le_value (firstn 8 bs) :: bytes_to_lanes n' (skipn 8 bs)
  end.

Definition rate : nat := 136.

(** Original Keccak padding (0x01 ... 0x80), not the SHA-3 one. *)
Definition pad (msg : list Z) : list Z :=
  let q := (rate - length msg mod rate)%nat in
  if (q =? 1)%nat then msg ++ [0x81]
  else msg ++ [0x01] ++ repeat 0 (q - 2) ++ [0x80].

Definition xor_block (st block : list Z) : list Z :=
  map (fun i => Z.lxor (nth i st 0) (nth i block 0)) lanes_idx.

Fixpoint absorb (fuel : nat) (st msg : list Z) : list Z :=
  match fuel with
  | O => st
  | S f =>
      match msg with
      | [] => st
      | _ => absorb f (keccak_f (xor_block st (bytes_to_lanes 17 (firstn rate msg))))
                      (skipn rate msg)
      end
  end.

Definition keccak256 (msg : list Z) : list Z :=
  let p := pad msg in
  let st := absorb (length p) (repeat 0 25) p in
  lane_bytes (nth 0 st 0) ++ lane_bytes (nth 1 st 0) ++
  lane_bytes (nth 2 st 0) ++ lane_bytes (nth 3 st 0).

End Keccak.

(** Numeric value of a byte string read big-endian. *)
Definition be_value (l : list Z) : Z := fold_left (fun acc b => acc * 256 + b) l 0.

Example keccak256_empty :
  be_value (Keccak.keccak256 []) =
  0xc5d2460186f7233c927e7db2dcc703c0e500b653ca82273b7bfad8045d85a470.
Proof. vm_compute. reflexivity. Qed.

Example keccak256_abc :
  be_value (Keccak.keccak256 [97; 98; 99]) =
  0x4e03657aea45a94fc7d47ba826c8d667c0d1e6e33a64a036ec44f58fa12d6c45.
Proof. vm_compute. reflexivity. Qed.

(* ------------------------------------------------------------------ *)
(** * Configuration, account state, errors                           *)
(* ------------------------------------------------------------------ *)

Definition MAX_CLAIMS : Z := 1000000.
Definition MODULI : list Z := [971; 311; 601].
Definition MODULI0 : Z := nth 0 MODULI 0.
Definition MODULI1 : Z := nth 1 MODULI 0.
Definition MODULI2 : Z := nth 2 MODULI 0.

Definition Pubkey := list Z.   (* [u8; 32] *)
Definition Hash32 := list Z.   (* [u8; 32] *)

Record State := mkState {
  authority : Pubkey;
  snapshot_hash : Hash32;
  claim_start_ts : Z;          (* i64 *)
  claim_duration : Z;          (* i64 *)
  claim_closed : bool;
  merkle_root : Hash32;
  total_claims : Z;            (* u64 *)
  claim_residues0 : list Z;    (* [u8; 122], 971 bits *)
  claim_residues1 : list Z;    (* [u8; 39],  311 bits *)
  claim_residues2 : list Z     (* [u8; 76],  601 bits *)
}.

(** [ErrorCode] of the program, plus the framework errors an instruction
    can end with: Anchor's [ConstraintHasOne] (account validation of
    [has_one = authority]), [AccountNotInitialized] (the state account
    does not exist) and the failure of the token transfer CPI. *)
Inductive Error :=
  | ClaimWindowClosed
  | AlreadyClaimed
  | Unauthorized
  | InvalidDuration
  | InvalidProof
  | InvalidIndex
  | ClaimClosed
  | ConstraintHasOne
  | AccountNotInitialized
  | TransferFailed.

Inductive Result (A : Type) := Ok (a : A) | Err (e : Error).
Arguments Ok {A} a.
Arguments Err {A} e.

(** i64 arithmetic: [+] in a build without overflow checks wraps. *)
Definition I64_MIN : Z := -9223372036854775808.   (* i64::MIN = -2^63 *)
Definition I64_MAX : Z := 9223372036854775807.    (* i64::MAX = 2^63 - 1 *)
Definition i64_wrap (z : Z) : Z :=
  (z + 9223372036854775808) mod 18446744073709551616 - 9223372036854775808.
Definition i64_add (a b : Z) : Z := i64_wrap (a + b).
Definition is_i64 (z : Z) : Prop := I64_MIN <= z <= I64_MAX.

(** Little-endian encoding of a u64 ([to_le_bytes]). *)
Definition u64_le_bytes (v : Z) : list Z :=
  map (fun i => Z.land (Z.shiftr v (8 * Z.of_nat i)) 255) (seq 0 8).

(* ------------------------------------------------------------------ *)
(** * Instruction monad: the in-place mutable state plus early return  *)
(* ------------------------------------------------------------------ *)

Definition M (A : Type) := State -> Result A * State.

Definition ret {A} (a : A) : M A := fun st => (Ok a, st).
Definition bind {A B} (m : M A) (k : A -> M B) : M B :=
  fun st => match m st with
            | (Ok a, st') => k a st'
            | (Err e, st') => (Err e, st')
            end.
Definition get_state : M State := fun st => (Ok st, st).
Definition put_state (st : State) : M unit := fun _ => (Ok tt, st).
Definition fail {A} (e : Error) : M A := fun st => (Err e, st).

(** [require!(cond, err)] *)
Definition require (b : bool) (e : Error) : M unit :=
  if b then ret tt else fail e.

Notation "'let*' x ':=' m 'in' k" := (bind m (fun x => k))
  (at level 200, x binder, m at level 100, k at level 200).

(* ------------------------------------------------------------------ *)
(** * Helper functions (lib.rs, lines 241-288)                        *)
(* ------------------------------------------------------------------ *)

(** [check_residue_set]: [residues.get(residue / 8)
    .map(|byte| (byte & (1 << residue % 8)) != 0).unwrap_or(false)] *)
Definition check_residue_set (residues : list Z) (residue : Z) : bool :=
  let byte_index := residue / 8 in
  let bit_index := residue mod 8 in
  match residues !! Z.to_nat byte_index with
  | Some byte => negb (Z.land byte (Z.shiftl 1 bit_index) =? 0)
  | None => false
  end.

(** [set_residue]: [if let Some(byte) = residues.get_mut(residue / 8)
    { *byte |= 1 << residue % 8 }] *)
Definition set_residue (residues : list Z) (residue : Z) : list Z :=
  let byte_index := residue / 8 in
  let bit_index := residue mod 8 in
  match residues !! Z.to_nat byte_index with
  | Some byte => <[Z.to_nat byte_index := Z.lor byte (Z.shiftl 1 bit_index)]> residues
  | None => residues
  end.

(** [keccak_leaf]: [keccak::hashv(&[&index.to_le_bytes(), wallet.as_ref(),
    &amount.to_le_bytes()])] *)
Definition keccak_leaf (index : Z) (wallet : Pubkey) (amount : Z) : Hash32 :=
  Keccak.keccak256 (u64_le_bytes index ++ wallet ++ u64_le_bytes amount).

(** [hash <= *p] on [[u8; 32]]: lexicographic order of the arrays. *)
Fixpoint bytes_le (a b : list Z) : bool :=
  match a, b with
  | [], _ => true
  | _ :: _, [] => false
  | x :: xs, y :: ys => if x <? y then true else if y <? x then false else bytes_le xs ys
  end.

(** The [for p in proof.iter()] loop of [verify_merkle_proof]. *)
Fixpoint fold_proof (hash : Hash32) (proof : list Hash32) : Hash32 :=
  match proof with
  | [] => hash
  | p :: ps =>
      let buf := if bytes_le hash p then hash ++ p else p ++ hash in
      fold_proof (Keccak.keccak256 buf) ps
  end.

Definition verify_merkle_proof (leaf : Hash32) (proof : list Hash32) (root : Hash32) : bool :=
  bool_decide (fold_proof leaf proof = root).

(* ------------------------------------------------------------------ *)
(** * Field assignments on the state account                         *)
(* ------------------------------------------------------------------ *)

Definition set_claim_closed (s : State) (b : bool) : State :=
  mkState (authority s) (snapshot_hash s) (claim_start_ts s) (claim_duration s) b
          (merkle_root s) (total_claims s)
          (claim_residues0 s) (claim_residues1 s) (claim_residues2 s).

Definition set_claim_start_ts (s : State) (t : Z) : State :=
  mkState (authority s) (snapshot_hash s) t (claim_duration s) (claim_closed s)
          (merkle_root s) (total_claims s)
          (claim_residues0 s) (claim_residues1 s) (claim_residues2 s).

Definition set_claim_duration (s : State) (d : Z) : State :=
  mkState (authority s) (snapshot_hash s) (claim_start_ts s) d (claim_closed s)
          (merkle_root s) (total_claims s)
          (claim_residues0 s) (claim_residues1 s) (claim_residues2 s).

Definition set_merkle_root (s : State) (r : Hash32) : State :=
  mkState (authority s) (snapshot_hash s) (claim_start_ts s) (claim_duration s)
          (claim_closed s) r (total_claims s)
          (claim_residues0 s) (claim_residues1 s) (claim_residues2 s).

Definition set_total_claims (s : State) (n : Z) : State :=
  mkState (authority s) (snapshot_hash s) (claim_start_ts s) (claim_duration s)
          (claim_closed s) (merkle_root s) n
          (claim_residues0 s) (claim_residues1 s) (claim_residues2 s).

Definition set_claim_residues0 (s : State) (a : list Z) : State :=
  mkState (authority s) (snapshot_hash s) (claim_start_ts s) (claim_duration s)
          (claim_closed s) (merkle_root s) (total_claims s)
          a (claim_residues1 s) (claim_residues2 s).

Definition set_claim_residues1 (s : State) (a : list Z) : State :=
  mkState (authority s) (snapshot_hash s) (claim_start_ts s) (claim_duration s)
          (claim_closed s) (merkle_root s) (total_claims s)
          (claim_residues0 s) a (claim_residues2 s).

Definition set_claim_residues2 (s : State) (a : list Z) : State :=
  mkState (authority s) (snapshot_hash s) (claim_start_ts s) (claim_duration s)
          (claim_closed s) (merkle_root s) (total_claims s)
          (claim_residues0 s) (claim_residues1 s) a.

Definition modify (f : State -> State) : M unit :=
  let* s := get_state in put_state (f s).

(* ------------------------------------------------------------------ *)
(** * Instructions (mod airdrop0)                                     *)
(* ------------------------------------------------------------------ *)

(** [initialize]: creates the state account ([init]); the account only
    exists when the handler returns Ok. *)
Definition initialize (authority : Pubkey) (snapshot_hash : Hash32)
    (claim_start_ts claim_duration : Z) (merkle_root : Hash32) (total_claims : Z)
    : Result State :=
  if negb (claim_duration >? 0) then Err InvalidDuration
  else if negb (total_claims <=? MAX_CLAIMS) then Err InvalidIndex
  else Ok (mkState authority snapshot_hash claim_start_ts claim_duration false
                   merkle_root total_claims
                   (repeat 0 122) (repeat 0 39) (repeat 0 76)).

(** [claim]. [now] is [Clock::get()?.unix_timestamp], [wallet] the
    signer's key and [transfer_ok] the outcome of the
    [token::transfer_checked] CPI; the [Claimed] event is not modelled. *)
Definition claim (now : Z) (wallet : Pubkey) (transfer_ok : bool)
    (index amount : Z) (proof : list Hash32) : M unit :=
  let* state := get_state in
  let* _ := require (negb (claim_closed state)) ClaimClosed in
  let* _ := require ((now >=? claim_start_ts state) &&
                     (now <=? i64_add (claim_start_ts state) (claim_duration state)))
                    ClaimWindowClosed in
  let* _ := require (index <? total_claims state) InvalidIndex in
  let leaf := keccak_leaf index wallet amount in
  let* _ := require (verify_merkle_proof leaf proof (merkle_root state)) InvalidProof in
  let residue0 := index mod MODULI0 in
  let residue1 := index mod MODULI1 in
  let residue2 := index mod MODULI2 in
  if check_residue_set (claim_residues0 state) residue0 ||
     check_residue_set (claim_residues1 state) residue1 ||
     check_residue_set (claim_residues2 state) residue2
  then fail AlreadyClaimed
  else
  let* _ := modify (fun s => set_claim_residues0 s (set_residue (claim_residues0 s) residue0)) in
  let* _ := modify (fun s => set_claim_residues1 s (set_residue (claim_residues1 s) residue1)) in
  let* _ := modify (fun s => set_claim_residues2 s (set_residue (claim_residues2 s) residue2)) in
  let* _ := require transfer_ok TransferFailed in
  ret tt.

Definition close_airdrop (caller : Pubkey) : M unit :=
  let* state := get_state in
  let* _ := require (bool_decide (caller = authority state)) Unauthorized in
  let* _ := put_state (set_claim_closed state true) in
  ret tt.

Definition update_claim_window (caller : Pubkey) (new_start_ts new_duration : Z) : M unit :=
  let* state := get_state in
  let* _ := require (bool_decide (caller = authority state)) Unauthorized in
  let* _ := require (new_duration >? 0) InvalidDuration in
  let* _ := modify (fun s => set_claim_closed s false) in
  let* _ := modify (fun s => set_claim_start_ts s new_start_ts) in
  let* _ := modify (fun s => set_claim_duration s new_duration) in
  ret tt.

Definition update_merkle_root (caller : Pubkey) (new_root : Hash32) (new_total_claims : Z)
    : M unit :=
  let* _ := require (new_total_claims <=? MAX_CLAIMS) InvalidIndex in
  let* state := get_state in
  let* _ := require (bool_decide (caller = authority state)) Unauthorized in
  let* _ := modify (fun s => set_merkle_root s new_root) in
  let* _ := modify (fun s => set_total_claims s new_total_claims) in
  ret tt.

(** [close_state]: the account is closed by [close = recipient] when the
    handler returns Ok (see [step]). *)
Definition close_state (caller : Pubkey) : M unit :=
  let* state := get_state in
  let* _ := require (bool_decide (caller = authority state)) Unauthorized in
  ret tt.

(** Anchor's account validation of [#[account(mut, has_one = authority)]],
    run before the handler of every admin instruction. *)
Definition has_one_authority (authority_key : Pubkey) : M unit :=
  let* state := get_state in
  require (bool_decide (authority state = authority_key)) ConstraintHasOne.

(** The instructions a ledger account receives between its creation by
    [initialize] and its deletion by [close_state].  [initialize] is not
    among them: a run starts from its result, and an account created
    again after [close_state] starts a new run. *)
Inductive Instruction :=
  | IClaim (now : Z) (wallet : Pubkey) (transfer_ok : bool)
           (index amount : Z) (proof : list Hash32)
  | ICloseAirdrop (caller : Pubkey)
  | IUpdateClaimWindow (caller : Pubkey) (new_start_ts new_duration : Z)
  | IUpdateMerkleRoot (caller : Pubkey) (new_root : Hash32) (new_total_claims : Z)
  | ICloseState (caller : Pubkey).

(** Accounts validation, then the handler. *)
Definition process (i : Instruction) : M unit :=
  match i with
  | IClaim now wallet ok index amount proof => claim now wallet ok index amount proof
  | ICloseAirdrop c => let* _ := has_one_authority c in close_airdrop c
  | IUpdateClaimWindow c s d => let* _ := has_one_authority c in update_claim_window c s d
  | IUpdateMerkleRoot c r n => let* _ := has_one_authority c in update_merkle_root c r n
  | ICloseState c => let* _ := has_one_authority c in close_state c
  end.

(** One transaction on the ledger account ([None]: it does not exist).
    An error aborts the transaction, so the account keeps its old data;
    on success the mutated state is written back, or the account is
    closed for [close_state]. *)
Definition step (ledger : option State) (i : Instruction) : Result unit * option State :=
  match ledger with
  | None => (Err AccountNotInitialized, None)
  | Some st =>
      match process i st with
      | (Err e, _) => (Err e, Some st)
      | (Ok _, st') =>
          (Ok tt, match i with ICloseState _ => None | _ => Some st' end)
      end
  end.

Fixpoint run (ledger : option State) (is : list Instruction) : option State :=
  match is with
  | [] => ledger
  | i :: rest => run (snd (step ledger i)) rest
  end.

(** The membership test of [claim] (lines 126-128). *)
Definition is_member (state : State) (index : Z) : bool :=
  check_residue_set (claim_residues0 state) (index mod MODULI0) ||
  check_residue_set (claim_residues1 state) (index mod MODULI1) ||
  check_residue_set (claim_residues2 state) (index mod MODULI2).

(** Bit [r] of a bit-packed byte array (bit [r mod 8] of byte [r / 8];
    positions past the end are unset). *)
Definition bit_set (arr : list Z) (r : Z) : bool :=
  Z.testbit (nth (Z.to_nat (r / 8)) arr 0) (r mod 8).

(* ------------------------------------------------------------------ *)
(** * Sample ledger used by the examples                               *)
(* ------------------------------------------------------------------ *)

Definition key_A : Pubkey := repeat 1 32.
Definition key_B : Pubkey := repeat 2 32.
Definition wallet_W : Pubkey := repeat 3 32.

(** Ledger whose Merkle tree is the single leaf of (slot 1, W, 5):
    window [0, 100], ten slots, nothing claimed. *)
Definition sample_ledger : State :=
  mkState key_A (repeat 0 32) 0 100 false (keccak_leaf 1 wallet_W 5) 10
          (repeat 0 122) (repeat 0 39) (repeat 0 76).

Example initialize_sample :
  initialize key_A (repeat 0 32) 0 100 (keccak_leaf 1 wallet_W 5) 10 = Ok sample_ledger.
Proof. reflexivity. Qed.

Example claim_sample_then_again :
  match step (Some sample_ledger) (IClaim 50 wallet_W true 1 5 []) with
  | (Ok _, Some st1) =>
      is_member st1 1 = true /\
      fst (step (Some st1) (IClaim 60 wallet_W true 1 5 [])) = Err AlreadyClaimed /\
      (* slot 972 shares residue 1 mod 971 with slot 1 *)
      is_member st1 972 = true
  | _ => False
  end.
Proof. vm_compute. auto. Qed.

(* ------------------------------------------------------------------ *)
(** * Bit primitives                                                   *)
(* ------------------------------------------------------------------ *)

Lemma land_shiftl1_testbit (b k : Z) :
  0 <= k -> negb (Z.land b (Z.shiftl 1 k) =? 0) = Z.testbit b k.
Proof.
  intros Hk. rewrite Z.shiftl_1_l.
  destruct (Z.testbit b k) eqn:E.
  - destruct (Z.eqb_spec (Z.land b (2 ^ k)) 0) as [H0|H0]; [|reflexivity].
    exfalso.
    assert (Hb : Z.testbit (Z.land b (2 ^ k)) k = true).
    { rewrite Z.land_spec, E, Z.pow2_bits_true by lia. reflexivity. }
    rewrite H0, Z.testbit_0_l in Hb. discriminate.
  - assert (H0 : Z.land b (2 ^ k) = 0).
    { apply Z.bits_inj'. intros n Hn.
      rewrite Z.land_spec, Z.testbit_0_l, Z.pow2_bits_eqb by lia.
      destruct (Z.eqb_spec k n) as [->|]; [rewrite E; reflexivity | apply andb_false_r]. }
    rewrite H0. reflexivity.
Qed.

Lemma check_residue_set_bit (arr : list Z) (r : Z) :
  check_residue_set arr r = bit_set arr r.
Proof.
  unfold check_residue_set, bit_set. rewrite nth_lookup.
  destruct (arr !! Z.to_nat (r / 8)) as [b|]; simpl.
  - apply land_shiftl1_testbit. pose proof (Z.mod_pos_bound r 8). lia.
  - rewrite Z.testbit_0_l. reflexivity.
Qed.

Lemma set_residue_length (arr : list Z) (r : Z) :
  length (set_residue arr r) = length arr.
Proof.
  unfold set_residue. destruct (arr !! _); [apply length_insert | reflexivity].
Qed.

Lemma set_residue_keeps (arr : list Z) (r q : Z) :
  bit_set arr q = true -> bit_set (set_residue arr r) q = true.
Proof.
  unfold set_residue, bit_set. rewrite !nth_lookup.
  destruct (arr !! Z.to_nat (r / 8)) as [b|] eqn:Hl; [|tauto].
  destruct (decide (Z.to_nat (r / 8) = Z.to_nat (q / 8))) as [Heq|Hne].
  - rewrite <- Heq, Hl, list_lookup_insert_eq by (eapply lookup_lt_Some; eauto).
    simpl. intros H. rewrite Z.lor_spec, H. reflexivity.
  - rewrite list_lookup_insert_ne by exact Hne. tauto.
Qed.

Lemma set_residue_hits (arr : list Z) (r : Z) :
  (Z.to_nat (r / 8) < length arr)%nat -> bit_set (set_residue arr r) r = true.
Proof.
  intros Hlt. unfold set_residue, bit_set. rewrite nth_lookup.
  destruct (lookup_lt_is_Some_2 arr _ Hlt) as [b Hb]. rewrite Hb.
  rewrite list_lookup_insert_eq by exact Hlt. simpl.
  pose proof (Z.mod_pos_bound r 8).
  rewrite Z.lor_spec, Z.shiftl_1_l, Z.pow2_bits_true by lia. apply orb_true_r.
Qed.

Lemma set_residue_out (arr : list Z) (r : Z) :
  (length arr <= Z.to_nat (r / 8))%nat -> set_residue arr r = arr.
Proof.
  intros Hge. unfold set_residue. rewrite (proj2 (lookup_ge_None _ _) Hge). reflexivity.
Qed.

(* ------------------------------------------------------------------ *)
(** * The claim instruction, case by case                              *)
(* ------------------------------------------------------------------ *)

(** The window test of [claim] (lines 106-110). *)
Definition window_open (state : State) (now : Z) : bool :=
  (now >=? claim_start_ts state) &&
  (now <=? i64_add (claim_start_ts state) (claim_duration state)).

(** The three [set_residue] calls of [claim] (lines 134-136). *)
Definition mark_residues (s : State) (index : Z) : State :=
  let s0 := set_claim_residues0 s (set_residue (claim_residues0 s) (index mod MODULI0)) in
  let s1 := set_claim_residues1 s0 (set_residue (claim_residues1 s0) (index mod MODULI1)) in
  set_claim_residues2 s1 (set_residue (claim_residues2 s1) (index mod MODULI2)).

Lemma claim_unfold now wallet ok index amount proof st :
  claim now wallet ok index amount proof st =
  if claim_closed st then (Err ClaimClosed, st)
  else if negb (window_open st now) then (Err ClaimWindowClosed, st)
  else if negb (index <? total_claims st) then (Err InvalidIndex, st)
  else if negb (verify_merkle_proof (keccak_leaf index wallet amount) proof (merkle_root st))
  then (Err InvalidProof, st)
  else if is_member st index then (Err AlreadyClaimed, st)
  else if ok then (Ok tt, mark_residues st index)
  else (Err TransferFailed, mark_residues st index).
Proof.
  unfold claim, window_open, is_member.
  cbv [bind get_state require ret fail modify put_state].
  destruct (claim_closed st); [reflexivity|].
  destruct (_ && _); [|reflexivity].
  destruct (index <? total_claims st); [|reflexivity].
  destruct (verify_merkle_proof _ _ _); [|reflexivity].
  destruct (_ || _ || _); [reflexivity|].
  destruct ok; reflexivity.
Qed.

Lemma window_open_true st now :
  claim_start_ts st <= now <= i64_add (claim_start_ts st) (claim_duration st) ->
  window_open st now = true.
Proof.
  intros [H1 H2]. unfold window_open.
  apply andb_true_intro. split; [apply Z.geb_le | apply Z.leb_le]; lia.
Qed.

Lemma is_member_bits st index :
  is_member st index = true <->
  bit_set (claim_residues0 st) (index mod 971) = true \/
  bit_set (claim_residues1 st) (index mod 311) = true \/
  bit_set (claim_residues2 st) (index mod 601) = true.
Proof.
  unfold is_member. rewrite !check_residue_set_bit, !orb_true_iff. tauto.
Qed.

(** The slot [972] shares its residue [1 mod 971] with slot [1]; a ledger
    where slot 1 has been marked and slot 972 is in the tree. *)
Definition ledger_after_slot1 : State :=
  mkState key_A (repeat 0 32) 0 100 false (keccak_leaf 972 wallet_W 5) 1000
          (2 :: repeat 0 121) (2 :: repeat 0 38) (2 :: repeat 0 75).

Ltac eval_Z := vm_compute; repeat split; try (intros; discriminate); try reflexivity.

(** C1: once the closed, window, index and proof checks of [claim] pass,
    the claim fails with AlreadyClaimed if and only if at least one of the
    three residue bits of the slot ([index mod 971] in the first array,
    [index mod 311] in the second, [index mod 601] in the third) is set,
    whichever slot set it (an OR over the three arrays). *)
Theorem claim_already_claimed_iff (now : Z) (wallet : Pubkey) (transfer_ok : bool)
    (st : State) (index amount : Z) (proof : list Hash32) :
  claim_closed st = false ->
  claim_start_ts st <= now <= i64_add (claim_start_ts st) (claim_duration st) ->
  0 <= index < total_claims st ->
  verify_merkle_proof (keccak_leaf index wallet amount) proof (merkle_root st) = true ->
  fst (claim now wallet transfer_ok index amount proof st) = Err AlreadyClaimed <->
  bit_set (claim_residues0 st) (index mod 971) = true \/
  bit_set (claim_residues1 st) (index mod 311) = true \/
  bit_set (claim_residues2 st) (index mod 601) = true.
Proof.
  intros Hc Hw Hi Hv.
  rewrite <- is_member_bits, claim_unfold, Hc, (window_open_true st now Hw), Hv.
  assert (Hlt : (index <? total_claims st) = true) by (apply Z.ltb_lt; lia).
  rewrite Hlt. cbn [negb].
  destruct (is_member st index); [tauto|].
  destruct transfer_ok; cbn [fst]; split; intros H; discriminate.
Qed.

(** Slot 972 is rejected because slot 1, a different slot, set bit
    [972 mod 971 = 1] of the first array. *)
Lemma claim_already_claimed_iff_witness :
  fst (claim 50 wallet_W true 972 5 [] ledger_after_slot1) = Err AlreadyClaimed <->
  bit_set (claim_residues0 ledger_after_slot1) (972 mod 971) = true \/
  bit_set (claim_residues1 ledger_after_slot1) (972 mod 311) = true \/
  bit_set (claim_residues2 ledger_after_slot1) (972 mod 601) = true.
Proof.
  apply (claim_already_claimed_iff 50 wallet_W true ledger_after_slot1 972 5 []);
    eval_Z.
Defined.

(** C4: when [claim] fails with ClaimClosed, ClaimWindowClosed,
    InvalidIndex, InvalidProof or AlreadyClaimed, the state it leaves
    (before any rollback by the runtime) is the state it started from: no
    field changed and no residue bit marked; the ledger after the
    transaction is the old one. *)
Theorem claim_error_leaves_state (now : Z) (wallet : Pubkey) (transfer_ok : bool)
    (st st' : State) (index amount : Z) (proof : list Hash32) (e : Error) :
  claim now wallet transfer_ok index amount proof st = (Err e, st') ->
  In e [ClaimClosed; ClaimWindowClosed; InvalidIndex; InvalidProof; AlreadyClaimed] ->
  st' = st /\
  step (Some st) (IClaim now wallet transfer_ok index amount proof) = (Err e, Some st).
Proof.
  intros H Hin. cbn [step process]. rewrite H.
  rewrite claim_unfold in H. split; [|reflexivity].
  repeat match type of H with
  | context [if ?b then _ else _] => destruct b
  end; inversion H; subst; try reflexivity.
  cbn in Hin. intuition discriminate.
Qed.

Lemma claim_error_leaves_state_witness :
  claim 200 wallet_W true 1 5 [] sample_ledger = (Err ClaimWindowClosed, sample_ledger) /\
  sample_ledger = sample_ledger /\
  step (Some sample_ledger) (IClaim 200 wallet_W true 1 5 []) =
    (Err ClaimWindowClosed, Some sample_ledger).
Proof.
  assert (H : claim 200 wallet_W true 1 5 [] sample_ledger =
              (Err ClaimWindowClosed, sample_ledger)) by (vm_compute; reflexivity).
  split; [exact H|].
  apply (claim_error_leaves_state 200 wallet_W true sample_ledger sample_ledger 1 5 []
           ClaimWindowClosed H).
  cbn. tauto.
Defined.

(* ------------------------------------------------------------------ *)
(** * Residue arrays across instructions                               *)
(* ------------------------------------------------------------------ *)

(** The [[u8; 122]], [[u8; 39]], [[u8; 76]] array types. *)
Definition arrays_sized (s : State) : Prop :=
  length (claim_residues0 s) = 122%nat /\
  length (claim_residues1 s) = 39%nat /\
  length (claim_residues2 s) = 76%nat.

Definition residues (s : State) : list Z * list Z * list Z :=
  (claim_residues0 s, claim_residues1 s, claim_residues2 s).

(** Every bit set in [s] is set in [s']. *)
Definition residues_le (s s' : State) : Prop :=
  forall q,
    (bit_set (claim_residues0 s) q = true -> bit_set (claim_residues0 s') q = true) /\
    (bit_set (claim_residues1 s) q = true -> bit_set (claim_residues1 s') q = true) /\
    (bit_set (claim_residues2 s) q = true -> bit_set (claim_residues2 s') q = true).

Lemma residues_le_refl s : residues_le s s.
Proof. intros q. tauto. Qed.

Lemma residues_le_same s s' : residues s' = residues s -> residues_le s s'.
Proof.
  unfold residues. intros H. injection H as H0 H1 H2. intros q.
  rewrite H0, H1, H2. tauto.
Qed.

Lemma residues_le_trans s1 s2 s3 :
  residues_le s1 s2 -> residues_le s2 s3 -> residues_le s1 s3.
Proof. intros H12 H23 q. specialize (H12 q). specialize (H23 q). tauto. Qed.

Lemma mark_residues_le s index : residues_le s (mark_residues s index).
Proof. intros q. cbn. split; [|split]; apply set_residue_keeps. Qed.

Lemma mark_residues_sized s index :
  arrays_sized s -> arrays_sized (mark_residues s index).
Proof. unfold arrays_sized. cbn. rewrite !set_residue_length. tauto. Qed.

Lemma mod_byte_index (index m : Z) (n : nat) :
  0 < m -> m <= 8 * Z.of_nat n -> (Z.to_nat ((index mod m) / 8) < n)%nat.
Proof.
  intros Hm Hn. pose proof (Z.mod_pos_bound index m Hm).
  assert (0 <= (index mod m) / 8 < Z.of_nat n).
  { split; [apply Z.div_pos; lia | apply Z.div_lt_upper_bound; lia]. }
  lia.
Qed.

Lemma mark_residues_member s index :
  arrays_sized s -> is_member (mark_residues s index) index = true.
Proof.
  intros (H0 & H1 & H2). apply is_member_bits. left. cbn.
  apply set_residue_hits. rewrite H0. apply mod_byte_index; lia.
Qed.

Lemma admin_residues_same i s :
  (forall c, i <> ICloseState c) ->
  (forall now w ok index amount proof, i <> IClaim now w ok index amount proof) ->
  residues (snd (process i s)) = residues s.
Proof.
  intros Hcs Hcl.
  destruct i as [now w ok index amount proof|c|c ns nd|c nr nn|c];
    [exfalso; eapply Hcl; reflexivity| | | |exfalso; eapply Hcs; reflexivity];
  cbv [process has_one_authority close_airdrop update_claim_window update_merkle_root
       bind get_state require ret fail modify put_state];
  repeat match goal with
  | |- context [if ?b then _ else _] => destruct b
  end; reflexivity.
Qed.

Lemma process_residues_le i s : residues_le s (snd (process i s)).
Proof.
  destruct i as [now w ok index amount proof|c|c ns nd|c nr nn|c].
  - cbn [process]. rewrite claim_unfold.
    repeat match goal with
    | |- context [if ?b then _ else _] => destruct b
    end; cbn [snd]; apply residues_le_refl || apply mark_residues_le.
  - apply residues_le_same, admin_residues_same; congruence.
  - apply residues_le_same, admin_residues_same; congruence.
  - apply residues_le_same, admin_residues_same; congruence.
  - apply residues_le_same.
    cbv [process has_one_authority close_state bind get_state require ret fail].
    repeat match goal with
    | |- context [if ?b then _ else _] => destruct b
    end; reflexivity.
Qed.

Lemma step_residues_le i s r s' :
  step (Some s) i = (r, Some s') -> residues_le s s'.
Proof.
  cbn [step]. pose proof (process_residues_le i s) as Hle.
  destruct (process i s) as [[u|e] s1].
  - destruct i; intros H; inversion H; subst; exact Hle.
  - intros H. inversion H; subst. apply residues_le_refl.
Qed.

Lemma run_None ops : run None ops = None.
Proof. induction ops; [reflexivity | exact IHops]. Qed.

Lemma run_residues_le ops : forall s s',
  run (Some s) ops = Some s' -> residues_le s s'.
Proof.
  induction ops as [|i rest IH]; intros s s' H.
  - cbn in H. inversion H; subst. apply residues_le_refl.
  - cbn [run] in H. destruct (step (Some s) i) as [r [s1|]] eqn:Hs.
    + eapply residues_le_trans; [eapply step_residues_le; exact Hs | exact (IH _ _ H)].
    + cbn [snd] in H. rewrite run_None in H. discriminate.
Qed.

Lemma is_member_le s s' index :
  residues_le s s' -> is_member s index = true -> is_member s' index = true.
Proof.
  intros Hle. rewrite !is_member_bits. intros Hm.
  destruct (Hle (index mod 971)) as (A0 & _ & _).
  destruct (Hle (index mod 311)) as (_ & A1 & _).
  destruct (Hle (index mod 601)) as (_ & _ & A2).
  tauto.
Qed.

Lemma step_claim_fst now w ok index amount proof s :
  fst (step (Some s) (IClaim now w ok index amount proof)) =
  fst (claim now w ok index amount proof s).
Proof.
  cbn [step process]. destruct (claim now w ok index amount proof s) as [[[]|e] s'];
  reflexivity.
Qed.

Lemma step_claim_ok now w ok index amount proof s s1 :
  step (Some s) (IClaim now w ok index amount proof) = (Ok tt, Some s1) ->
  s1 = mark_residues s index.
Proof.
  cbn [step process]. rewrite claim_unfold.
  repeat match goal with
  | |- context [if ?b then _ else _] => destruct b
  end; intros H; inversion H; reflexivity.
Qed.

(** Slot 1 of [sample_ledger] claimed: bit 1 set in the three arrays. *)
Definition sample_after_slot1 : State :=
  mkState key_A (repeat 0 32) 0 100 false (keccak_leaf 1 wallet_W 5) 10
          (2 :: repeat 0 121) (2 :: repeat 0 38) (2 :: repeat 0 75).

Example sample_claim_slot1 :
  step (Some sample_ledger) (IClaim 50 wallet_W true 1 5 []) = (Ok tt, Some sample_after_slot1).
Proof. vm_compute. reflexivity. Qed.

(** C2 (as stated): after a successful claim of slot [i], every later
    claim of [i] fails with AlreadyClaimed.  False: once the authority
    closes the airdrop, the re-claim of slot 1 fails with ClaimClosed,
    the first check of [claim]. *)
Lemma claimed_slot_always_already_claimed_counterexample :
  step (Some sample_ledger) (IClaim 50 wallet_W true 1 5 []) =
    (Ok tt, Some sample_after_slot1) /\
  run (Some sample_after_slot1) [ICloseAirdrop key_A] =
    Some (set_claim_closed sample_after_slot1 true) /\
  fst (step (Some (set_claim_closed sample_after_slot1 true))
            (IClaim 60 wallet_W true 1 5 [])) = Err ClaimClosed.
Proof. vm_compute. repeat split; reflexivity. Qed.

(** C2 (amended): after a successful claim of slot [index], in every
    state reached by any later sequence of instructions while the ledger
    exists, the membership test is true for [index]; every later claim of
    [index] fails, leaving the ledger as it is, with the error of the
    first check it does not pass among the closed, window, index and proof
    checks, and with AlreadyClaimed whenever it passes all four. *)
Theorem claimed_slot_stays_member (st st1 st2 : State) (now : Z) (wallet : Pubkey)
    (transfer_ok : bool) (index amount : Z) (proof : list Hash32) (ops : list Instruction) :
  arrays_sized st ->
  step (Some st) (IClaim now wallet transfer_ok index amount proof) = (Ok tt, Some st1) ->
  run (Some st1) ops = Some st2 ->
  is_member st2 index = true /\
  forall now' wallet' transfer_ok' amount' proof',
    step (Some st2) (IClaim now' wallet' transfer_ok' index amount' proof') =
      (Err (if claim_closed st2 then ClaimClosed
            else if negb ((now' >=? claim_start_ts st2) &&
                          (now' <=? i64_add (claim_start_ts st2) (claim_duration st2)))
            then ClaimWindowClosed
            else if negb (index <? total_claims st2) then InvalidIndex
            else if negb (verify_merkle_proof (keccak_leaf index wallet' amount') proof'
                            (merkle_root st2))
            then InvalidProof
            else AlreadyClaimed), Some st2) /\
    (claim_closed st2 = false ->
     claim_start_ts st2 <= now' <= i64_add (claim_start_ts st2) (claim_duration st2) ->
     index < total_claims st2 ->
     verify_merkle_proof (keccak_leaf index wallet' amount') proof' (merkle_root st2) = true ->
     fst (step (Some st2) (IClaim now' wallet' transfer_ok' index amount' proof')) =
       Err AlreadyClaimed).
Proof.
  intros Hsz Hok Hrun.
  apply step_claim_ok in Hok. subst st1.
  assert (Hm : is_member st2 index = true).
  { eapply is_member_le; [exact (run_residues_le _ _ _ Hrun)|].
    apply mark_residues_member, Hsz. }
  split; [exact Hm|].
  intros now' wallet' ok' amount' proof'.
  split.
  - cbn [step process]. rewrite claim_unfold, Hm. unfold window_open.
    repeat match goal with
    | |- context [if ?b then _ else _] => destruct b
    end; reflexivity.
  - rewrite step_claim_fst, claim_unfold, Hm.
    intros Hc Hw Hi Hv. rewrite Hc, (window_open_true st2 now' Hw), Hv.
    assert (Hlt : (index <? total_claims st2) = true) by (apply Z.ltb_lt; lia).
    rewrite Hlt. reflexivity.
Qed.

Lemma claimed_slot_stays_member_witness :
  is_member (set_claim_closed sample_after_slot1 true) 1 = true /\
  forall now' wallet' transfer_ok' amount' proof',
    step (Some (set_claim_closed sample_after_slot1 true))
         (IClaim now' wallet' transfer_ok' 1 amount' proof') =
      (Err (if claim_closed (set_claim_closed sample_after_slot1 true) then ClaimClosed
            else if negb ((now' >=? claim_start_ts (set_claim_closed sample_after_slot1 true)) &&
                          (now' <=? i64_add (claim_start_ts (set_claim_closed sample_after_slot1 true))
                                            (claim_duration (set_claim_closed sample_after_slot1 true))))
            then ClaimWindowClosed
            else if negb (1 <? total_claims (set_claim_closed sample_after_slot1 true)) then InvalidIndex
            else if negb (verify_merkle_proof (keccak_leaf 1 wallet' amount') proof'
                            (merkle_root (set_claim_closed sample_after_slot1 true)))
            then InvalidProof
            else AlreadyClaimed), Some (set_claim_closed sample_after_slot1 true)) /\
    (claim_closed (set_claim_closed sample_after_slot1 true) = false ->
     claim_start_ts (set_claim_closed sample_after_slot1 true) <= now' <=
       i64_add (claim_start_ts (set_claim_closed sample_after_slot1 true))
               (claim_duration (set_claim_closed sample_after_slot1 true)) ->
     1 < total_claims (set_claim_closed sample_after_slot1 true) ->
     verify_merkle_proof (keccak_leaf 1 wallet' amount') proof'
       (merkle_root (set_claim_closed sample_after_slot1 true)) = true ->
     fst (step (Some (set_claim_closed sample_after_slot1 true))
               (IClaim now' wallet' transfer_ok' 1 amount' proof')) = Err AlreadyClaimed).
Proof.
  apply (claimed_slot_stays_member sample_ledger sample_after_slot1
           (set_claim_closed sample_after_slot1 true) 50 wallet_W true 1 5 []
           [ICloseAirdrop key_A]).
  - unfold arrays_sized. cbn. repeat split.
  - vm_compute. reflexivity.
  - vm_compute. reflexivity.
Defined.

(** C5: bits of the residue arrays are never cleared: along any sequence
    of instructions during which the ledger exists, every bit set before
    is still set after.  [update_merkle_root], [close_airdrop] and
    [update_claim_window] leave the three arrays as they are, whatever
    their outcome, and a successful [update_merkle_root] replaces the
    root and the slot count only. *)
Theorem residue_bits_monotone (s s' : State) (ops : list Instruction) :
  run (Some s) ops = Some s' ->
  residues_le s s' /\
  (forall c r n, residues (snd (process (IUpdateMerkleRoot c r n) s)) = residues s) /\
  (forall c, residues (snd (process (ICloseAirdrop c) s)) = residues s) /\
  (forall c t d, residues (snd (process (IUpdateClaimWindow c t d) s)) = residues s) /\
  (forall c r n s1, step (Some s) (IUpdateMerkleRoot c r n) = (Ok tt, Some s1) ->
     merkle_root s1 = r /\ total_claims s1 = n /\ residues s1 = residues s).
Proof.
  intros Hrun. split; [exact (run_residues_le _ _ _ Hrun)|].
  split; [intros; apply admin_residues_same; congruence|].
  split; [intros; apply admin_residues_same; congruence|].
  split; [intros; apply admin_residues_same; congruence|].
  intros c r n s1.
  cbv [step process has_one_authority update_merkle_root
       bind get_state require ret fail modify put_state].
  repeat match goal with
  | |- context [if ?b then _ else _] => destruct b
  end; intros H; inversion H; subst; cbn; auto.
Qed.

Definition sample_reopened : State :=
  mkState key_A (repeat 0 32) 0 50 false (repeat 7 32) 20
          (2 :: repeat 0 121) (2 :: repeat 0 38) (2 :: repeat 0 75).

Lemma residue_bits_monotone_witness :
  run (Some sample_ledger)
      [IClaim 50 wallet_W true 1 5 []; IUpdateMerkleRoot key_A (repeat 7 32) 20;
       ICloseAirdrop key_A; IUpdateClaimWindow key_A 0 50] = Some sample_reopened /\
  residues_le sample_ledger sample_reopened /\
  (forall c r n, residues (snd (process (IUpdateMerkleRoot c r n) sample_ledger)) =
                 residues sample_ledger) /\
  (forall c, residues (snd (process (ICloseAirdrop c) sample_ledger)) =
             residues sample_ledger) /\
  (forall c t d, residues (snd (process (IUpdateClaimWindow c t d) sample_ledger)) =
                 residues sample_ledger) /\
  (forall c r n s1, step (Some sample_ledger) (IUpdateMerkleRoot c r n) = (Ok tt, Some s1) ->
     merkle_root s1 = r /\ total_claims s1 = n /\ residues s1 = residues sample_ledger).
Proof.
  assert (H : run (Some sample_ledger)
      [IClaim 50 wallet_W true 1 5 []; IUpdateMerkleRoot key_A (repeat 7 32) 20;
       ICloseAirdrop key_A; IUpdateClaimWindow key_A 0 50] = Some sample_reopened)
    by (vm_compute; reflexivity).
  split; [exact H | exact (residue_bits_monotone _ _ _ H)].
Defined.

(* ------------------------------------------------------------------ *)
(** * Admin instructions                                               *)
(* ------------------------------------------------------------------ *)

Lemma has_one_authority_fails caller st :
  caller <> authority st -> has_one_authority caller st = (Err ConstraintHasOne, st).
Proof.
  intros Hne. cbv [has_one_authority bind get_state require fail].
  rewrite bool_decide_eq_false_2 by congruence. reflexivity.
Qed.

(** The handlers alone do not report Unauthorized in every case:
    [update_merkle_root] checks the slot count before the caller. *)
Example update_merkle_root_handler_checks_count_first :
  fst (update_merkle_root key_B (repeat 0 32) 2000000 sample_ledger) = Err InvalidIndex.
Proof. reflexivity. Qed.

(** C6 (as stated): every admin instruction called by someone other than
    the stored authority fails with Unauthorized.  False: the
    [has_one = authority] constraint of the accounts rejects the call
    first, with ConstraintHasOne. *)
Lemma admin_ops_fail_unauthorized_counterexample :
  key_B <> authority sample_ledger /\
  fst (step (Some sample_ledger) (ICloseAirdrop key_B)) = Err ConstraintHasOne /\
  fst (step (Some sample_ledger) (ICloseAirdrop key_B)) <> Err Unauthorized.
Proof.
  split; [cbn; intros H; discriminate H|].
  split; [reflexivity | cbn; discriminate].
Qed.

(** C6 (amended): every admin instruction ([close_airdrop],
    [update_claim_window], [update_merkle_root], [close_state]) called by
    someone other than the stored authority fails, for every argument,
    with ConstraintHasOne from the [has_one = authority] account check
    (the handler and its Unauthorized check are not reached), and the
    ledger is unchanged. *)
Theorem admin_ops_reject_non_authority (st : State) (caller : Pubkey) :
  caller <> authority st ->
  step (Some st) (ICloseAirdrop caller) = (Err ConstraintHasOne, Some st) /\
  (forall t d, step (Some st) (IUpdateClaimWindow caller t d) =
               (Err ConstraintHasOne, Some st)) /\
  (forall r n, step (Some st) (IUpdateMerkleRoot caller r n) =
               (Err ConstraintHasOne, Some st)) /\
  step (Some st) (ICloseState caller) = (Err ConstraintHasOne, Some st).
Proof.
  intros Hne. pose proof (has_one_authority_fails caller st Hne) as H.
  repeat split; intros; cbv [step process bind]; rewrite H; reflexivity.
Qed.

Lemma admin_ops_reject_non_authority_witness :
  key_B <> authority sample_ledger /\
  step (Some sample_ledger) (ICloseAirdrop key_B) = (Err ConstraintHasOne, Some sample_ledger) /\
  (forall t d, step (Some sample_ledger) (IUpdateClaimWindow key_B t d) =
               (Err ConstraintHasOne, Some sample_ledger)) /\
  (forall r n, step (Some sample_ledger) (IUpdateMerkleRoot key_B r n) =
               (Err ConstraintHasOne, Some sample_ledger)) /\
  step (Some sample_ledger) (ICloseState key_B) = (Err ConstraintHasOne, Some sample_ledger).
Proof.
  assert (H : key_B <> authority sample_ledger) by (cbn; intros E; discriminate E).
  split; [exact H | exact (admin_ops_reject_non_authority sample_ledger key_B H)].
Defined.

(** C8: on any ledger, in particular a closed one, [update_claim_window]
    called by the authority with a positive duration succeeds, sets the
    new start and duration, and reopens the ledger. *)
Theorem update_window_reopens (st : State) (caller : Pubkey) (new_start_ts new_duration : Z) :
  caller = authority st ->
  new_duration > 0 ->
  exists st',
    step (Some st) (IUpdateClaimWindow caller new_start_ts new_duration) = (Ok tt, Some st') /\
    claim_closed st' = false /\
    claim_start_ts st' = new_start_ts /\
    claim_duration st' = new_duration.
Proof.
  intros -> Hd.
  exists (set_claim_duration (set_claim_start_ts (set_claim_closed st false) new_start_ts)
                             new_duration).
  cbv [step process has_one_authority update_claim_window
       bind get_state require ret fail modify put_state].
  rewrite !bool_decide_eq_true_2 by reflexivity.
  assert (Hg : (new_duration >? 0) = true) by (apply Z.gtb_lt; lia).
  rewrite Hg. repeat split.
Qed.

Lemma update_window_reopens_witness :
  claim_closed (set_claim_closed sample_ledger true) = true /\
  exists st',
    step (Some (set_claim_closed sample_ledger true)) (IUpdateClaimWindow key_A 1000 100) =
      (Ok tt, Some st') /\
    claim_closed st' = false /\ claim_start_ts st' = 1000 /\ claim_duration st' = 100.
Proof.
  split; [reflexivity|].
  apply (update_window_reopens (set_claim_closed sample_ledger true) key_A 1000 100);
    [reflexivity | lia].
Defined.

(* ------------------------------------------------------------------ *)
(** * The Merkle proof verifier                                        *)
(* ------------------------------------------------------------------ *)

Definition is_byte (b : Z) : bool := (0 <=? b) && (b <? 256).

(** A [[u8; 32]] value. *)
Definition is_digest (d : list Z) : bool := (length d =? 32)%nat && forallb is_byte d.

(** Reading of the verifier in Section 4.1 of the spec: the two 32-byte
    values are ordered by their numeric value, smaller one first. *)
Fixpoint spec_fold (hash : Hash32) (proof : list Hash32) : Hash32 :=
  match proof with
  | [] => hash
  | p :: ps =>
      spec_fold (Keccak.keccak256 (if be_value hash <=? be_value p
                                   then hash ++ p else p ++ hash)) ps
  end.

Definition spec_verify (leaf : Hash32) (proof : list Hash32) (root : Hash32) : bool :=
  bool_decide (spec_fold leaf proof = root).

Lemma be_value_fold xs acc :
  fold_left (fun a b => a * 256 + b) xs acc =
  acc * 256 ^ Z.of_nat (length xs) + be_value xs.
Proof.
  unfold be_value. revert acc.
  induction xs as [|x xs IH]; intros acc; cbn [fold_left length].
  - change (Z.of_nat 0) with 0. rewrite Z.pow_0_r. ring.
  - rewrite (IH (acc * 256 + x)), (IH (0 * 256 + x)).
    rewrite Nat2Z.inj_succ, Z.pow_succ_r by lia. ring.
Qed.

Lemma be_value_cons x xs :
  be_value (x :: xs) = x * 256 ^ Z.of_nat (length xs) + be_value xs.
Proof. unfold be_value at 1. cbn [fold_left]. rewrite be_value_fold. ring. Qed.

Lemma be_value_bound xs :
  forallb is_byte xs = true -> 0 <= be_value xs < 256 ^ Z.of_nat (length xs).
Proof.
  induction xs as [|x xs IH]; cbn [forallb]; intros H.
  - cbn. lia.
  - apply andb_true_iff in H as [Hx Hxs].
    unfold is_byte in Hx. apply andb_true_iff in Hx as [Hx0 Hx1].
    apply Z.leb_le in Hx0. apply Z.ltb_lt in Hx1.
    specialize (IH Hxs). rewrite be_value_cons. cbn [length].
    rewrite Nat2Z.inj_succ, Z.pow_succ_r by lia.
    pose proof (Z.pow_pos_nonneg 256 (Z.of_nat (length xs))). nia.
Qed.

(** Lexicographic order of equal-length byte arrays is the order of
    their big-endian values. *)
Lemma bytes_le_be_value xs ys :
  length xs = length ys -> forallb is_byte xs = true -> forallb is_byte ys = true ->
  bytes_le xs ys = (be_value xs <=? be_value ys).
Proof.
  revert ys. induction xs as [|x xs IH]; intros [|y ys] Hl Hx Hy; try discriminate Hl.
  - reflexivity.
  - cbn [forallb] in Hx, Hy.
    apply andb_true_iff in Hx as [Hx Hxs]. apply andb_true_iff in Hy as [Hy Hys].
    injection Hl as Hl.
    pose proof (be_value_bound xs Hxs) as Bx. pose proof (be_value_bound ys Hys) as By.
    rewrite Hl in Bx.
    cbn [bytes_le]. rewrite !be_value_cons, Hl.
    set (P := 256 ^ Z.of_nat (length ys)) in *.
    destruct (Z.ltb_spec x y) as [Hxy|Hxy].
    + symmetry. apply Z.leb_le. nia.
    + destruct (Z.ltb_spec y x) as [Hyx|Hyx].
      * symmetry. apply Z.leb_gt. nia.
      * assert (x = y) as -> by lia. rewrite (IH ys Hl Hxs Hys).
        destruct (Z.leb_spec (be_value xs) (be_value ys));
        destruct (Z.leb_spec (y * P + be_value xs) (y * P + be_value ys)); lia.
Qed.

Lemma lane_bytes_digest l :
  length (Keccak.lane_bytes l) = 8%nat /\ forallb is_byte (Keccak.lane_bytes l) = true.
Proof.
  split; [unfold Keccak.lane_bytes; rewrite length_map; reflexivity|].
  apply forallb_forall. intros b Hb. unfold Keccak.lane_bytes in Hb.
  apply in_map_iff in Hb as [i [<- _]].
  change 255 with (Z.ones 8). rewrite Z.land_ones by lia.
  pose proof (Z.mod_pos_bound (Z.shiftr l (8 * Z.of_nat i)) (2 ^ 8)) as Hm.
  unfold is_byte. apply andb_true_iff. split; [apply Z.leb_le | apply Z.ltb_lt]; lia.
Qed.

Lemma keccak256_digest msg : is_digest (Keccak.keccak256 msg) = true.
Proof.
  unfold Keccak.keccak256. cbv zeta.
  generalize (Keccak.absorb (length (Keccak.pad msg)) (repeat 0 25) (Keccak.pad msg)).
  intros st. unfold is_digest. rewrite !length_app, !forallb_app.
  destruct (lane_bytes_digest (nth 0 st 0)) as [L0 F0].
  destruct (lane_bytes_digest (nth 1 st 0)) as [L1 F1].
  destruct (lane_bytes_digest (nth 2 st 0)) as [L2 F2].
  destruct (lane_bytes_digest (nth 3 st 0)) as [L3 F3].
  rewrite L0, L1, L2, L3, F0, F1, F2, F3. reflexivity.
Qed.

Lemma is_digest_parts d :
  is_digest d = true -> length d = 32%nat /\ forallb is_byte d = true.
Proof.
  unfold is_digest. intros H. apply andb_true_iff in H as [H1 H2].
  split; [apply Nat.eqb_eq; exact H1 | exact H2].
Qed.

Lemma fold_proof_spec_fold proof : forall hash,
  is_digest hash = true -> forallb is_digest proof = true ->
  fold_proof hash proof = spec_fold hash proof.
Proof.
  induction proof as [|p ps IH]; intros hash Hh Hp; [reflexivity|].
  cbn [forallb] in Hp. apply andb_true_iff in Hp as [Hp Hps].
  destruct (is_digest_parts _ Hh) as [Lh Fh]. destruct (is_digest_parts _ Hp) as [Lp Fp].
  cbn [fold_proof spec_fold].
  rewrite (bytes_le_be_value hash p) by congruence.
  apply IH; [apply keccak256_digest | exact Hps].
Qed.

(** C3: for a 32-byte leaf and 32-byte proof elements,
    [verify_merkle_proof] computes the spec's fold (hash := leaf; for each
    proof element in order, hash := keccak of the two values concatenated
    smaller number first; true iff the final hash is the root).  It is a
    total function with a boolean result, and [claim] turns [false] into
    InvalidProof once the earlier checks pass, leaving the state as it
    was. *)
Theorem verify_merkle_proof_refines (leaf root : Hash32) (proof : list Hash32) :
  is_digest leaf = true ->
  forallb is_digest proof = true ->
  verify_merkle_proof leaf proof root = spec_verify leaf proof root /\
  (forall now wallet transfer_ok st index amount,
     leaf = keccak_leaf index wallet amount ->
     root = merkle_root st ->
     claim_closed st = false ->
     claim_start_ts st <= now <= i64_add (claim_start_ts st) (claim_duration st) ->
     index < total_claims st ->
     verify_merkle_proof leaf proof root = false ->
     claim now wallet transfer_ok index amount proof st = (Err InvalidProof, st)).
Proof.
  intros Hl Hp. split.
  - unfold verify_merkle_proof, spec_verify. rewrite fold_proof_spec_fold by assumption.
    reflexivity.
  - intros now wallet ok st index amount -> -> Hc Hw Hi Hv.
    rewrite claim_unfold, Hc, (window_open_true st now Hw), Hv.
    assert (Hlt : (index <? total_claims st) = true) by (apply Z.ltb_lt; lia).
    rewrite Hlt. reflexivity.
Qed.

Lemma verify_merkle_proof_refines_witness :
  verify_merkle_proof (keccak_leaf 1 wallet_W 5) [repeat 9 32] (merkle_root sample_ledger) =
    spec_verify (keccak_leaf 1 wallet_W 5) [repeat 9 32] (merkle_root sample_ledger) /\
  (forall now wallet transfer_ok st index amount,
     keccak_leaf 1 wallet_W 5 = keccak_leaf index wallet amount ->
     merkle_root sample_ledger = merkle_root st ->
     claim_closed st = false ->
     claim_start_ts st <= now <= i64_add (claim_start_ts st) (claim_duration st) ->
     index < total_claims st ->
     verify_merkle_proof (keccak_leaf 1 wallet_W 5) [repeat 9 32] (merkle_root sample_ledger)
       = false ->
     claim now wallet transfer_ok index amount [repeat 9 32] st = (Err InvalidProof, st)).
Proof.
  apply verify_merkle_proof_refines; vm_compute; reflexivity.
Defined.

Example claim_sample_bad_proof :
  claim 50 wallet_W true 1 5 [repeat 9 32] sample_ledger = (Err InvalidProof, sample_ledger).
Proof. vm_compute. reflexivity. Qed.

(* ------------------------------------------------------------------ *)
(** * The claim window                                                 *)
(* ------------------------------------------------------------------ *)

Lemma i64_wrap_small z : is_i64 z -> i64_wrap z = z.
Proof.
  unfold is_i64, I64_MIN, I64_MAX, i64_wrap. intros Hz.
  rewrite Z.mod_small by lia. lia.
Qed.

(** Without overflow of [claim_start_ts + claim_duration], the window is
    the closed interval between the two bounds. *)
Lemma window_no_overflow st now :
  is_i64 (claim_start_ts st + claim_duration st) ->
  window_open st now = true <->
  claim_start_ts st <= now <= claim_start_ts st + claim_duration st.
Proof.
  intros Hr. unfold window_open, i64_add. rewrite i64_wrap_small by exact Hr.
  rewrite andb_true_iff, Z.geb_le, Z.leb_le. lia.
Qed.

Definition overflow_ledger : State :=
  mkState key_A (repeat 0 32) (I64_MAX - 10) 100 false (keccak_leaf 1 wallet_W 5) 10
          (repeat 0 122) (repeat 0 39) (repeat 0 76).

(** C7: the window bounds are meant to be inclusive.  With
    [claim_start_ts = i64::MAX - 10] and [claim_duration = 100] (accepted
    by [initialize]), a claim at [now = claim_start_ts], the lower bound,
    fails with ClaimWindowClosed: the end of the window wraps. *)
Theorem window_lower_bound_rejected_on_overflow :
  initialize key_A (repeat 0 32) (I64_MAX - 10) 100 (keccak_leaf 1 wallet_W 5) 10 =
    Ok overflow_ledger /\
  claim (I64_MAX - 10) wallet_W true 1 5 [] overflow_ledger =
    (Err ClaimWindowClosed, overflow_ledger).
Proof. split; [reflexivity | vm_compute; reflexivity]. Qed.

(** C10: when [claim_start_ts + claim_duration] exceeds [i64::MAX] on a
    ledger created by [initialize] (so [claim_duration > 0]), the wrapped
    window end is below [claim_start_ts], and every claim at a time from
    [claim_start_ts] on fails with ClaimWindowClosed. *)
Theorem window_end_wraps (auth : Pubkey) (snap root : Hash32) (start dur total : Z)
    (st : State) :
  is_i64 start -> is_i64 dur ->
  start + dur > I64_MAX ->
  initialize auth snap start dur root total = Ok st ->
  dur > 0 /\
  i64_add start dur < start /\
  forall now wallet transfer_ok index amount proof,
    start <= now <= I64_MAX ->
    claim now wallet transfer_ok index amount proof st = (Err ClaimWindowClosed, st).
Proof.
  unfold is_i64, I64_MIN, I64_MAX. intros Hs Hd Hov Hinit.
  unfold initialize in Hinit.
  destruct (Z.gtb_spec dur 0) as [Hpos|Hpos]; [|discriminate Hinit].
  destruct (total <=? MAX_CLAIMS); [|discriminate Hinit].
  cbn [negb] in Hinit. injection Hinit as Hst.
  assert (Hc : claim_closed st = false) by (rewrite <- Hst; reflexivity).
  assert (Hst0 : claim_start_ts st = start) by (rewrite <- Hst; reflexivity).
  assert (Hdur : claim_duration st = dur) by (rewrite <- Hst; reflexivity).
  assert (Hw : i64_add start dur = start + dur - 18446744073709551616).
  { unfold i64_add, i64_wrap.
    rewrite <- (Z.mod_unique (start + dur + 9223372036854775808) 18446744073709551616 1
               (start + dur + 9223372036854775808 - 18446744073709551616)); lia. }
  split; [lia|]. split; [lia|].
  intros now wallet ok index amount proof Hn.
  assert (Hwo : window_open st now = false).
  { unfold window_open. rewrite Hst0, Hdur, Hw.
    apply andb_false_iff. right. apply Z.leb_gt. lia. }
  rewrite claim_unfold, Hc, Hwo. reflexivity.
Qed.

Lemma window_end_wraps_witness :
  100 > 0 /\
  i64_add (I64_MAX - 10) 100 < I64_MAX - 10 /\
  forall now wallet transfer_ok index amount proof,
    I64_MAX - 10 <= now <= I64_MAX ->
    claim now wallet transfer_ok index amount proof overflow_ledger =
      (Err ClaimWindowClosed, overflow_ledger).
Proof.
  apply (window_end_wraps key_A (repeat 0 32) (keccak_leaf 1 wallet_W 5)
           (I64_MAX - 10) 100 10 overflow_ledger);
    [unfold is_i64, I64_MIN, I64_MAX; lia | unfold is_i64, I64_MIN, I64_MAX; lia
    | unfold I64_MAX; lia | reflexivity].
Defined.

(* ------------------------------------------------------------------ *)
(** * Out-of-range residues                                            *)
(* ------------------------------------------------------------------ *)

(** C9: at a position at or past the bit width of the array,
    [check_residue_set] answers false (no fault) and [set_residue]
    leaves the array unchanged; the residues [claim] computes are always
    inside the three arrays ([971 <= 8 * 122], [311 <= 8 * 39],
    [601 <= 8 * 76]). *)
Theorem residue_primitives_out_of_range (arr : list Z) (residue : Z) :
  8 * Z.of_nat (length arr) <= residue ->
  check_residue_set arr residue = false /\
  set_residue arr residue = arr /\
  (forall index,
     0 <= index mod MODULI0 < 8 * 122 /\
     0 <= index mod MODULI1 < 8 * 39 /\
     0 <= index mod MODULI2 < 8 * 76).
Proof.
  intros Hr.
  assert (Hge : (length arr <= Z.to_nat (residue / 8))%nat).
  { assert (Z.of_nat (length arr) <= residue / 8) by (apply Z.div_le_lower_bound; lia).
    lia. }
  split; [|split].
  - unfold check_residue_set. rewrite (proj2 (lookup_ge_None _ _) Hge). reflexivity.
  - apply set_residue_out, Hge.
  - intros index. unfold MODULI0, MODULI1, MODULI2. cbn [MODULI nth].
    pose proof (Z.mod_pos_bound index 971).
    pose proof (Z.mod_pos_bound index 311).
    pose proof (Z.mod_pos_bound index 601). lia.
Qed.

Lemma residue_primitives_out_of_range_witness :
  check_residue_set (repeat 255 122) 976 = false /\
  set_residue (repeat 255 122) 976 = repeat 255 122 /\
  (forall index,
     0 <= index mod MODULI0 < 8 * 122 /\
     0 <= index mod MODULI1 < 8 * 39 /\
     0 <= index mod MODULI2 < 8 * 76).
Proof.
  apply residue_primitives_out_of_range. vm_compute. intros H; discriminate H.
Defined.

(* ------------------------------------------------------------------ *)
(** * Admin instructions called by the authority                       *)
(* ------------------------------------------------------------------ *)

Ltac admin_cbv :=
  cbv [process has_one_authority close_airdrop update_claim_window update_merkle_root
       close_state bind get_state require ret fail modify put_state];
  rewrite ?bool_decide_eq_true_2 by reflexivity.

Lemma close_airdrop_by_authority st :
  process (ICloseAirdrop (authority st)) st = (Ok tt, set_claim_closed st true).
Proof. admin_cbv. reflexivity. Qed.

Lemma update_claim_window_by_authority st t d :
  process (IUpdateClaimWindow (authority st) t d) st =
  if d >? 0
  then (Ok tt, set_claim_duration (set_claim_start_ts (set_claim_closed st false) t) d)
  else (Err InvalidDuration, st).
Proof. admin_cbv. destruct (d >? 0); reflexivity. Qed.

Lemma update_merkle_root_by_authority st r n :
  process (IUpdateMerkleRoot (authority st) r n) st =
  if n <=? MAX_CLAIMS
  then (Ok tt, set_total_claims (set_merkle_root st r) n)
  else (Err InvalidIndex, st).
Proof.
  admin_cbv. destruct (n <=? MAX_CLAIMS); cbv beta iota zeta; [|reflexivity].
  rewrite bool_decide_eq_true_2 by reflexivity. reflexivity.
Qed.

Lemma close_state_by_authority st :
  process (ICloseState (authority st)) st = (Ok tt, st).
Proof. admin_cbv. reflexivity. Qed.

Lemma step_claim now w ok index amount proof st :
  step (Some st) (IClaim now w ok index amount proof) =
  match claim now w ok index amount proof st with
  | (Err e, _) => (Err e, Some st)
  | (Ok _, st') => (Ok tt, Some st')
  end.
Proof. reflexivity. Qed.

(** The invariant [initialize] establishes: residue arrays of their
    declared sizes, at most [MAX_CLAIMS] slots, a positive duration. *)
Definition ledger_inv (s : State) : Prop :=
  arrays_sized s /\ total_claims s <= MAX_CLAIMS /\ claim_duration s > 0.

Lemma step_inv i s s' r :
  ledger_inv s -> step (Some s) i = (r, Some s') -> ledger_inv s'.
Proof.
  intros Hinv.
  destruct i as [now w ok index amount proof|c|c t d|c nr n|c].
  - rewrite step_claim, claim_unfold.
    repeat match goal with
    | |- context [if ?b then _ else _] => destruct b
    end; intros H; inversion H; subst; try exact Hinv.
    destruct Hinv as (Hsz & Ht & Hd). split; [apply mark_residues_sized, Hsz | cbn; lia].
  - cbn [step]. destruct (decide (c = authority s)) as [->|Hne].
    + rewrite close_airdrop_by_authority. intros H; inversion H; subst. exact Hinv.
    + cbv [process bind]. rewrite has_one_authority_fails by exact Hne.
      intros H; inversion H; subst. exact Hinv.
  - cbn [step]. destruct (decide (c = authority s)) as [->|Hne].
    + rewrite update_claim_window_by_authority.
      destruct (Z.gtb_spec d 0) as [Hd0|Hd0]; intros H; inversion H; subst; [|exact Hinv].
      destruct Hinv as (Hsz & Ht & _). repeat split; cbn; try apply Hsz; lia.
    + cbv [process bind]. rewrite has_one_authority_fails by exact Hne.
      intros H; inversion H; subst. exact Hinv.
  - cbn [step]. destruct (decide (c = authority s)) as [->|Hne].
    + rewrite update_merkle_root_by_authority.
      destruct (Z.leb_spec n MAX_CLAIMS) as [Hn0|Hn0]; intros H; inversion H; subst; [|exact Hinv].
      destruct Hinv as (Hsz & _ & Hd). repeat split; cbn; try apply Hsz; lia.
    + cbv [process bind]. rewrite has_one_authority_fails by exact Hne.
      intros H; inversion H; subst. exact Hinv.
  - cbn [step]. destruct (decide (c = authority s)) as [->|Hne].
    + rewrite close_state_by_authority. intros H; discriminate H.
    + cbv [process bind]. rewrite has_one_authority_fails by exact Hne.
      intros H; inversion H; subst. exact Hinv.
Qed.

Lemma bit_set_zeros n q : bit_set (repeat 0 n) q = false.
Proof.
  unfold bit_set. destruct (nth_lookup_or_length (repeat 0 n) (Z.to_nat (q / 8)) 0)
    as [Hl|Hl].
  - rewrite nth_repeat. apply Z.testbit_0_l.
  - rewrite nth_overflow by exact Hl. apply Z.testbit_0_l.
Qed.

(** Every state a successful instruction can leave. *)
Lemma step_cases i s s' r :
  step (Some s) i = (r, Some s') ->
  s' = s \/
  (exists index, s' = mark_residues s index) \/
  s' = set_claim_closed s true \/
  (exists t d, s' = set_claim_duration (set_claim_start_ts (set_claim_closed s false) t) d) \/
  (exists nr n, s' = set_total_claims (set_merkle_root s nr) n).
Proof.
  destruct i as [now w ok index amount proof|c|c t d|c nr n|c].
  - rewrite step_claim, claim_unfold.
    repeat match goal with
    | |- context [if ?b then _ else _] => destruct b
    end; intros H; inversion H; subst; eauto 6.
  - cbn [step]. destruct (decide (c = authority s)) as [->|Hne].
    + rewrite close_airdrop_by_authority. intros H; inversion H; subst. eauto 6.
    + cbv [process bind]. rewrite has_one_authority_fails by exact Hne.
      intros H; inversion H; subst. auto.
  - cbn [step]. destruct (decide (c = authority s)) as [->|Hne].
    + rewrite update_claim_window_by_authority.
      destruct (d >? 0); intros H; inversion H; subst; eauto 7.
    + cbv [process bind]. rewrite has_one_authority_fails by exact Hne.
      intros H; inversion H; subst. auto.
  - cbn [step]. destruct (decide (c = authority s)) as [->|Hne].
    + rewrite update_merkle_root_by_authority.
      destruct (n <=? MAX_CLAIMS); intros H; inversion H; subst; eauto 7.
    + cbv [process bind]. rewrite has_one_authority_fails by exact Hne.
      intros H; inversion H; subst. auto.
  - cbn [step]. destruct (decide (c = authority s)) as [->|Hne].
    + rewrite close_state_by_authority. intros H; discriminate H.
    + cbv [process bind]. rewrite has_one_authority_fails by exact Hne.
      intros H; inversion H; subst. auto.
Qed.

(** X1: [initialize] rejects a non-positive duration with InvalidDuration,
    then a slot count above [MAX_CLAIMS] with InvalidIndex; otherwise it
    creates an open ledger holding the given fields, with the invariant
    [ledger_inv], on which no slot is a member. *)
Theorem initialize_outcome (auth : Pubkey) (snap root : Hash32) (start dur total : Z) :
  (dur <= 0 -> initialize auth snap start dur root total = Err InvalidDuration) /\
  (dur > 0 -> total > MAX_CLAIMS -> initialize auth snap start dur root total = Err InvalidIndex) /\
  (dur > 0 -> total <= MAX_CLAIMS ->
   exists st, initialize auth snap start dur root total = Ok st /\
     ledger_inv st /\ claim_closed st = false /\
     authority st = auth /\ snapshot_hash st = snap /\ merkle_root st = root /\
     claim_start_ts st = start /\ claim_duration st = dur /\ total_claims st = total /\
     claim_residues0 st = repeat 0 122 /\ claim_residues1 st = repeat 0 39 /\
     claim_residues2 st = repeat 0 76 /\
     forall index, is_member st index = false).
Proof.
  unfold initialize. split; [|split].
  - intros Hd. destruct (Z.gtb_spec dur 0); [lia | reflexivity].
  - intros Hd Ht. destruct (Z.gtb_spec dur 0); [|lia].
    destruct (Z.leb_spec total MAX_CLAIMS); [lia | reflexivity].
  - intros Hd Ht. destruct (Z.gtb_spec dur 0); [|lia].
    destruct (Z.leb_spec total MAX_CLAIMS); [|lia].
    eexists. split; [reflexivity|].
    split; [unfold ledger_inv, arrays_sized; cbn; repeat split; lia|].
    do 10 (split; [reflexivity|]).
    intros index. unfold is_member. cbn [claim_residues0 claim_residues1 claim_residues2].
    rewrite !check_residue_set_bit, !bit_set_zeros.
    reflexivity.
Qed.

Lemma run_preserves_ledger_inv_aux ops : forall s s',
  ledger_inv s -> run (Some s) ops = Some s' -> ledger_inv s'.
Proof.
  induction ops as [|i rest IH]; intros s s' Hinv H.
  - cbn in H. inversion H; subst. exact Hinv.
  - cbn [run] in H. destruct (step (Some s) i) as [r [s1|]] eqn:Hs.
    + exact (IH s1 s' (step_inv i s s1 r Hinv Hs) H).
    + cbn [snd] in H. rewrite run_None in H. discriminate.
Qed.

(** X2: the invariant set up by [initialize] (residue arrays of 122, 39
    and 76 bytes, [total_claims <= MAX_CLAIMS], [claim_duration > 0]) holds
    after any sequence of instructions, as long as the ledger exists. *)
Theorem run_preserves_ledger_inv (s s' : State) (ops : list Instruction) :
  ledger_inv s -> run (Some s) ops = Some s' -> ledger_inv s'.
Proof. apply run_preserves_ledger_inv_aux. Qed.

Lemma run_preserves_ledger_inv_witness :
  ledger_inv sample_ledger /\ ledger_inv sample_reopened.
Proof.
  assert (Hi : ledger_inv sample_ledger).
  { unfold ledger_inv, arrays_sized, MAX_CLAIMS. cbn. repeat split; lia. }
  split; [exact Hi|].
  apply (run_preserves_ledger_inv sample_ledger sample_reopened
           [IClaim 50 wallet_W true 1 5 []; IUpdateMerkleRoot key_A (repeat 7 32) 20;
            ICloseAirdrop key_A; IUpdateClaimWindow key_A 0 50] Hi).
  vm_compute. reflexivity.
Defined.

Lemma run_keeps_keys_aux ops : forall s s',
  run (Some s) ops = Some s' ->
  authority s' = authority s /\ snapshot_hash s' = snapshot_hash s.
Proof.
  induction ops as [|i rest IH]; intros s s' H.
  - cbn in H. inversion H; subst. auto.
  - cbn [run] in H. destruct (step (Some s) i) as [r [s1|]] eqn:Hs.
    + destruct (IH s1 s' H) as [A B]. rewrite A, B.
      destruct (step_cases i s s1 r Hs) as [->|[[? ->]|[->|[[? [? ->]]|[? [? ->]]]]]];
        cbn; auto.
    + cbn [snd] in H. rewrite run_None in H. discriminate.
Qed.

(** X3: no instruction changes the stored authority or the snapshot hash
    (which seeds the vault PDA): they stay as [initialize] set them for
    the whole life of the ledger. *)
Theorem run_keeps_authority_and_snapshot (s s' : State) (ops : list Instruction) :
  run (Some s) ops = Some s' ->
  authority s' = authority s /\ snapshot_hash s' = snapshot_hash s.
Proof. apply run_keeps_keys_aux. Qed.

Lemma run_keeps_authority_and_snapshot_witness :
  authority sample_reopened = authority sample_ledger /\
  snapshot_hash sample_reopened = snapshot_hash sample_ledger.
Proof.
  apply (run_keeps_authority_and_snapshot sample_ledger sample_reopened
           [IClaim 50 wallet_W true 1 5 []; IUpdateMerkleRoot key_A (repeat 7 32) 20;
            ICloseAirdrop key_A; IUpdateClaimWindow key_A 0 50]).
  vm_compute. reflexivity.
Defined.

Lemma window_open_iff st now :
  window_open st now = true <->
  claim_start_ts st <= now <= i64_add (claim_start_ts st) (claim_duration st).
Proof. unfold window_open. rewrite andb_true_iff, Z.geb_le, Z.leb_le. lia. Qed.

Lemma bit_set_set_residue (arr : list Z) (r q : Z) :
  0 <= r -> 0 <= q ->
  bit_set (set_residue arr r) q =
  bit_set arr q || ((q =? r) && (r <? 8 * Z.of_nat (length arr))).
Proof.
  intros Hr Hq.
  pose proof (Z.div_mod r 8 ltac:(lia)). pose proof (Z.div_mod q 8 ltac:(lia)).
  pose proof (Z.mod_pos_bound r 8 ltac:(lia)). pose proof (Z.mod_pos_bound q 8 ltac:(lia)).
  assert (0 <= r / 8) by (apply Z.div_pos; lia).
  assert (0 <= q / 8) by (apply Z.div_pos; lia).
  unfold set_residue, bit_set. rewrite !nth_lookup.
  destruct (arr !! Z.to_nat (r / 8)) as [b|] eqn:Hl.
  - pose proof (lookup_lt_Some _ _ _ Hl) as Hlt.
    assert (Hin : (r <? 8 * Z.of_nat (length arr)) = true) by (apply Z.ltb_lt; lia).
    rewrite Hin, andb_true_r.
    destruct (decide (Z.to_nat (r / 8) = Z.to_nat (q / 8))) as [E|E].
    + rewrite <- E, (list_lookup_insert_eq _ _ _ Hlt), Hl. cbn [default id].
      assert (q / 8 = r / 8) by lia.
      rewrite Z.lor_spec, Z.shiftl_1_l, Z.pow2_bits_eqb by lia.
      f_equal. destruct (Z.eqb_spec (r mod 8) (q mod 8)), (Z.eqb_spec q r);
        try reflexivity; exfalso; lia.
    + rewrite (list_lookup_insert_ne _ _ _ _ E).
      assert (Hne : q <> r) by (intros ->; apply E; reflexivity).
      rewrite (proj2 (Z.eqb_neq q r) Hne), orb_false_r. reflexivity.
  - pose proof (lookup_ge_None_1 _ _ Hl) as Hge.
    assert (Hout : (r <? 8 * Z.of_nat (length arr)) = false) by (apply Z.ltb_ge; lia).
    rewrite Hout, andb_false_r, orb_false_r. reflexivity.
Qed.

(** X4: [set_residue] followed by [check_residue_set]: the bit at
    position [r] reads as set after marking [r] exactly when [r] lies
    inside the array, and every other position reads as before. *)
Theorem check_after_set_residue (arr : list Z) (r q : Z) :
  0 <= r -> 0 <= q ->
  check_residue_set (set_residue arr r) q =
  check_residue_set arr q || ((q =? r) && (r <? 8 * Z.of_nat (length arr))).
Proof. intros Hr Hq. rewrite !check_residue_set_bit. apply bit_set_set_residue; assumption. Qed.

Lemma check_after_set_residue_witness :
  check_residue_set (set_residue (repeat 0 39) 310) 310 = true /\
  check_residue_set (set_residue (repeat 0 39) 310) 309 = false /\
  check_residue_set (set_residue (repeat 0 39) 310) 310 =
  check_residue_set (repeat 0 39) 310 || ((310 =? 310) && (310 <? 8 * Z.of_nat (length (repeat 0 39)))).
Proof.
  split; [vm_compute; reflexivity|]. split; [vm_compute; reflexivity|].
  apply check_after_set_residue; lia.
Defined.

(** X5: marking a residue twice is the same as marking it once. *)
Theorem set_residue_idempotent (arr : list Z) (r : Z) :
  set_residue (set_residue arr r) r = set_residue arr r.
Proof.
  unfold set_residue. destruct (arr !! Z.to_nat (r / 8)) as [b|] eqn:Hl.
  - pose proof (lookup_lt_Some _ _ _ Hl) as Hlt.
    rewrite (list_lookup_insert_eq _ _ _ Hlt), list_insert_insert_eq.
    rewrite <- Z.lor_assoc, Z.lor_diag. reflexivity.
  - rewrite Hl. reflexivity.
Qed.

(** X6: a claim succeeds exactly when the ledger is open, [now] is in the
    window, the index is below [total_claims], the proof verifies, the
    membership test is false for the index and the token transfer goes
    through. *)
Theorem claim_succeeds_iff (now : Z) (wallet : Pubkey) (transfer_ok : bool) (st : State)
    (index amount : Z) (proof : list Hash32) :
  (exists st', step (Some st) (IClaim now wallet transfer_ok index amount proof) =
               (Ok tt, Some st')) <->
  claim_closed st = false /\
  claim_start_ts st <= now <= i64_add (claim_start_ts st) (claim_duration st) /\
  index < total_claims st /\
  verify_merkle_proof (keccak_leaf index wallet amount) proof (merkle_root st) = true /\
  is_member st index = false /\
  transfer_ok = true.
Proof.
  rewrite step_claim, claim_unfold. split.
  - intros [st' H].
    destruct (claim_closed st) eqn:Ec; [discriminate H|].
    destruct (window_open st now) eqn:Ew; [|discriminate H].
    destruct (Z.ltb_spec index (total_claims st)) as [Hi|Hi]; [|discriminate H].
    destruct (verify_merkle_proof _ _ _) eqn:Ev; [|discriminate H].
    destruct (is_member st index) eqn:Em; [discriminate H|].
    destruct transfer_ok; [|discriminate H].
    apply window_open_iff in Ew. tauto.
  - intros (Hc & Hw & Hi & Hv & Hm & ->).
    rewrite Hc, (window_open_true st now Hw), Hv, Hm.
    assert (Hlt : (index <? total_claims st) = true) by (apply Z.ltb_lt; lia).
    rewrite Hlt. eexists. reflexivity.
Qed.

Lemma check_mark_mod (arr : list Z) (index m q : Z) :
  0 < m -> m <= 8 * Z.of_nat (length arr) -> 0 <= q ->
  check_residue_set (set_residue arr (index mod m)) q =
  check_residue_set arr q || (q =? index mod m).
Proof.
  intros Hm Hl Hq. pose proof (Z.mod_pos_bound index m Hm).
  rewrite !check_residue_set_bit, bit_set_set_residue by lia.
  assert (Hin : (index mod m <? 8 * Z.of_nat (length arr)) = true) by (apply Z.ltb_lt; lia).
  rewrite Hin, andb_true_r. reflexivity.
Qed.

Lemma moduli_values : MODULI0 = 971 /\ MODULI1 = 311 /\ MODULI2 = 601.
Proof. repeat split. Qed.

Ltac mark_fields :=
  unfold mark_residues, set_claim_residues0, set_claim_residues1, set_claim_residues2;
  cbn [authority snapshot_hash claim_start_ts claim_duration claim_closed merkle_root
       total_claims claim_residues0 claim_residues1 claim_residues2].

(** X7: a successful claim on a ledger with arrays of their initial
    sizes changes nothing but the three residue arrays, keeps their
    sizes, and sets in array [k] exactly the bit [index mod MODULIk] in
    addition to the bits already set. *)
Theorem claim_success_effect (now : Z) (wallet : Pubkey) (transfer_ok : bool) (st st' : State)
    (index amount : Z) (proof : list Hash32) :
  arrays_sized st ->
  step (Some st) (IClaim now wallet transfer_ok index amount proof) = (Ok tt, Some st') ->
  authority st' = authority st /\ snapshot_hash st' = snapshot_hash st /\
  claim_start_ts st' = claim_start_ts st /\ claim_duration st' = claim_duration st /\
  claim_closed st' = claim_closed st /\ merkle_root st' = merkle_root st /\
  total_claims st' = total_claims st /\ arrays_sized st' /\
  (forall q, 0 <= q ->
     check_residue_set (claim_residues0 st') q =
       check_residue_set (claim_residues0 st) q || (q =? index mod MODULI0) /\
     check_residue_set (claim_residues1 st') q =
       check_residue_set (claim_residues1 st) q || (q =? index mod MODULI1) /\
     check_residue_set (claim_residues2 st') q =
       check_residue_set (claim_residues2 st) q || (q =? index mod MODULI2)).
Proof.
  intros Hs H. apply step_claim_ok in H. subst st'.
  pose proof (mark_residues_sized st index Hs) as Hs'.
  destruct Hs as (H0 & H1 & H2). destruct moduli_values as (M0 & M1 & M2).
  mark_fields. do 7 (split; [reflexivity|]). split; [exact Hs'|].
  intros q Hq. split; [|split]; apply check_mark_mod; lia.
Qed.

Lemma claim_success_effect_witness :
  (arrays_sized sample_ledger /\
   step (Some sample_ledger) (IClaim 50 wallet_W true 1 5 []) = (Ok tt, Some sample_after_slot1)) /\
  merkle_root sample_after_slot1 = merkle_root sample_ledger.
Proof.
  assert (Hs : arrays_sized sample_ledger) by (repeat split).
  assert (Hst : step (Some sample_ledger) (IClaim 50 wallet_W true 1 5 []) =
                (Ok tt, Some sample_after_slot1)) by (vm_compute; reflexivity).
  split; [split; assumption|].
  exact (proj1 (proj2 (proj2 (proj2 (proj2 (proj2
    (claim_success_effect 50 wallet_W true sample_ledger sample_after_slot1 1 5 [] Hs Hst))))))).
Defined.

Lemma mark_residues_member_eq (st : State) (index j : Z) :
  arrays_sized st ->
  is_member (mark_residues st index) j =
    is_member st j || (j mod MODULI0 =? index mod MODULI0) ||
    (j mod MODULI1 =? index mod MODULI1) || (j mod MODULI2 =? index mod MODULI2).
Proof.
  intros Hs. destruct Hs as (H0 & H1 & H2). destruct moduli_values as (M0 & M1 & M2).
  unfold is_member. mark_fields.
  rewrite !check_mark_mod; try (apply Z.mod_pos_bound; lia); try lia.
  destruct (check_residue_set (claim_residues0 st) _), (check_residue_set (claim_residues1 st) _),
    (check_residue_set (claim_residues2 st) _), (j mod MODULI0 =? _), (j mod MODULI1 =? _),
    (j mod MODULI2 =? _); reflexivity.
Qed.

(** X8: after a successful claim of [index], slot [j] is reported as a
    member exactly when it was before, or it agrees with [index] modulo
    one of the three moduli. *)
Theorem claim_success_membership (now : Z) (wallet : Pubkey) (transfer_ok : bool)
    (st st' : State) (index amount : Z) (proof : list Hash32) :
  arrays_sized st ->
  step (Some st) (IClaim now wallet transfer_ok index amount proof) = (Ok tt, Some st') ->
  forall j, is_member st' j =
    is_member st j || (j mod MODULI0 =? index mod MODULI0) ||
    (j mod MODULI1 =? index mod MODULI1) || (j mod MODULI2 =? index mod MODULI2).
Proof.
  intros Hs H j. apply step_claim_ok in H. subst st'.
  apply mark_residues_member_eq. exact Hs.
Qed.

Lemma claim_success_membership_witness :
  (arrays_sized sample_ledger /\
   step (Some sample_ledger) (IClaim 50 wallet_W true 1 5 []) = (Ok tt, Some sample_after_slot1)) /\
  is_member sample_after_slot1 972 =
    is_member sample_ledger 972 || (972 mod MODULI0 =? 1 mod MODULI0) ||
    (972 mod MODULI1 =? 1 mod MODULI1) || (972 mod MODULI2 =? 1 mod MODULI2).
Proof.
  assert (Hs : arrays_sized sample_ledger) by (repeat split).
  assert (Hst : step (Some sample_ledger) (IClaim 50 wallet_W true 1 5 []) =
                (Ok tt, Some sample_after_slot1)) by (vm_compute; reflexivity).
  split; [split; assumption|].
  exact (claim_success_membership 50 wallet_W true sample_ledger sample_after_slot1 1 5 [] Hs Hst 972).
Defined.

(** X9: [update_claim_window] called by the authority: a non-positive
    duration fails with InvalidDuration and leaves the ledger as it was
    (a closed airdrop stays closed); a positive one reopens the airdrop
    with the new window and touches no other field. *)
Theorem update_window_by_authority_outcome (st : State) (t d : Z) :
  (d <= 0 ->
   step (Some st) (IUpdateClaimWindow (authority st) t d) = (Err InvalidDuration, Some st)) /\
  (0 < d -> exists st',
   step (Some st) (IUpdateClaimWindow (authority st) t d) = (Ok tt, Some st') /\
   claim_closed st' = false /\ claim_start_ts st' = t /\ claim_duration st' = d /\
   authority st' = authority st /\ snapshot_hash st' = snapshot_hash st /\
   merkle_root st' = merkle_root st /\ total_claims st' = total_claims st /\
   residues st' = residues st).
Proof.
  split; intros Hd; cbn [step]; rewrite update_claim_window_by_authority.
  - destruct (Z.gtb_spec d 0); [lia | reflexivity].
  - destruct (Z.gtb_spec d 0); [|lia].
    eexists. split; [reflexivity|]. do 7 (split; [reflexivity|]). reflexivity.
Qed.

(** X10: [update_merkle_root] called by the authority: a count above
    MAX_CLAIMS fails with InvalidIndex and leaves the ledger as it was;
    otherwise it sets the root and the count and keeps the closed flag,
    the window and the residue arrays (slots claimed under the old root
    stay marked). *)
Theorem update_root_by_authority_outcome (st : State) (r : Hash32) (n : Z) :
  (MAX_CLAIMS < n ->
   step (Some st) (IUpdateMerkleRoot (authority st) r n) = (Err InvalidIndex, Some st)) /\
  (n <= MAX_CLAIMS -> exists st',
   step (Some st) (IUpdateMerkleRoot (authority st) r n) = (Ok tt, Some st') /\
   merkle_root st' = r /\ total_claims st' = n /\
   claim_closed st' = claim_closed st /\ claim_start_ts st' = claim_start_ts st /\
   claim_duration st' = claim_duration st /\ authority st' = authority st /\
   snapshot_hash st' = snapshot_hash st /\ residues st' = residues st).
Proof.
  split; intros Hn; cbn [step]; rewrite update_merkle_root_by_authority.
  - destruct (Z.leb_spec n MAX_CLAIMS); [lia | reflexivity].
  - destruct (Z.leb_spec n MAX_CLAIMS); [|lia].
    eexists. split; [reflexivity|]. do 7 (split; [reflexivity|]). reflexivity.
Qed.

(** X11: [close_airdrop] by the authority always succeeds (also on an
    airdrop already closed) and afterwards every claim fails with
    ClaimClosed, leaving the ledger unchanged. *)
Theorem close_airdrop_blocks_claims (st : State) :
  exists st',
    step (Some st) (ICloseAirdrop (authority st)) = (Ok tt, Some st') /\
    claim_closed st' = true /\
    forall now wallet transfer_ok index amount proof,
      step (Some st') (IClaim now wallet transfer_ok index amount proof) =
      (Err ClaimClosed, Some st').
Proof.
  exists (set_claim_closed st true).
  split; [cbn [step]; rewrite close_airdrop_by_authority; reflexivity|].
  split; [reflexivity|].
  intros now wallet transfer_ok index amount proof.
  rewrite step_claim, claim_unfold. reflexivity.
Qed.

Definition is_window_update (i : Instruction) : bool :=
  match i with IUpdateClaimWindow _ _ _ => true | _ => false end.

Lemma step_keeps_closed i s s' r :
  claim_closed s = true -> is_window_update i = false ->
  step (Some s) i = (r, Some s') -> claim_closed s' = true.
Proof.
  intros Hc Hw. destruct i as [now w ok index amount proof|c|c t d|c nr n|c];
    try discriminate Hw.
  - rewrite step_claim, claim_unfold, Hc. intros H; simpl in H; inversion H; subst; exact Hc.
  - cbn [step]. destruct (decide (c = authority s)) as [->|Hne].
    + rewrite close_airdrop_by_authority. intros H; inversion H; subst. reflexivity.
    + cbv [process bind]. rewrite has_one_authority_fails by exact Hne.
      intros H; inversion H; subst. exact Hc.
  - cbn [step]. destruct (decide (c = authority s)) as [->|Hne].
    + rewrite update_merkle_root_by_authority.
      destruct (n <=? MAX_CLAIMS); intros H; inversion H; subst; exact Hc.
    + cbv [process bind]. rewrite has_one_authority_fails by exact Hne.
      intros H; inversion H; subst. exact Hc.
  - cbn [step]. destruct (decide (c = authority s)) as [->|Hne].
    + rewrite close_state_by_authority. intros H; discriminate H.
    + cbv [process bind]. rewrite has_one_authority_fails by exact Hne.
      intros H; inversion H; subst. exact Hc.
Qed.

(** X12: once closed, an airdrop stays closed through any sequence of
    transactions without an [update_claim_window]: no other instruction
    clears the closed flag. *)
Theorem run_keeps_closed (ops : list Instruction) (s s' : State) :
  claim_closed s = true ->
  forallb (fun i => negb (is_window_update i)) ops = true ->
  run (Some s) ops = Some s' -> claim_closed s' = true.
Proof.
  revert s. induction ops as [|i rest IH]; intros s Hc Hops H.
  - cbn in H. inversion H; subst. exact Hc.
  - cbn [forallb] in Hops. apply andb_true_iff in Hops as [Hi Hrest].
    cbn [run] in H. destruct (step (Some s) i) as [r [s1|]] eqn:Hs.
    + apply (IH s1); [|exact Hrest|exact H].
      apply (step_keeps_closed i s s1 r Hc); [|exact Hs].
      destruct (is_window_update i); [discriminate Hi|reflexivity].
    + cbn [snd] in H. rewrite run_None in H. discriminate.
Qed.

Lemma run_keeps_closed_witness :
  let s := set_claim_closed sample_ledger true in
  let ops := [IUpdateMerkleRoot key_A (repeat 7 32) 20; IClaim 50 wallet_W true 1 5 []] in
  let s' := set_total_claims (set_merkle_root s (repeat 7 32)) 20 in
  (claim_closed s = true /\ forallb (fun i => negb (is_window_update i)) ops = true /\
   run (Some s) ops = Some s') /\ claim_closed s' = true.
Proof.
  intros s ops s'.
  assert (H1 : claim_closed s = true) by reflexivity.
  assert (H2 : forallb (fun i => negb (is_window_update i)) ops = true) by reflexivity.
  assert (H3 : run (Some s) ops = Some s') by (vm_compute; reflexivity).
  split; [split; [exact H1 | split; [exact H2 | exact H3]]|].
  exact (run_keeps_closed ops s s' H1 H2 H3).
Defined.

Lemma bytes_le_antisym (a b : list Z) :
  bytes_le a b = true -> bytes_le b a = true -> a = b.
Proof.
  revert b. induction a as [|x xs IH]; intros [|y ys] H1 H2; try reflexivity;
    try discriminate; cbn in H1, H2.
  destruct (Z.ltb_spec x y), (Z.ltb_spec y x); try discriminate; try lia.
  assert (x = y) by lia. subst y. f_equal. apply IH; assumption.
Qed.

Lemma bytes_le_total (a b : list Z) :
  bytes_le a b = false -> bytes_le b a = true.
Proof.
  revert b. induction a as [|x xs IH]; intros [|y ys] H; try reflexivity;
    try discriminate; cbn in H |- *.
  destruct (Z.ltb_spec x y), (Z.ltb_spec y x); try discriminate; try reflexivity; try lia.
  apply IH. exact H.
Qed.

(** X13: the two hashes of a node are combined in sorted byte order, so
    a leaf and its first sibling are interchangeable: verifying [b] with
    sibling [a] gives the same answer as verifying [a] with sibling
    [b]. *)
Theorem verify_merkle_proof_pair_symmetric (a b root : Hash32) (proof : list Hash32) :
  verify_merkle_proof a (b :: proof) root = verify_merkle_proof b (a :: proof) root.
Proof.
  unfold verify_merkle_proof. cbn [fold_proof].
  destruct (bytes_le a b) eqn:Hab, (bytes_le b a) eqn:Hba; try reflexivity.
  - rewrite (bytes_le_antisym a b Hab Hba). reflexivity.
  - pose proof (bytes_le_total a b Hab) as Hc. congruence.
Qed.

Lemma mod_mul_split (w m : Z) :
  0 < m -> w mod (256 * m) = w mod 256 + 256 * ((w / 256) mod m).
Proof.
  intros Hm.
  pose proof (Z.div_mod w 256 ltac:(lia)). pose proof (Z.div_mod (w / 256) m ltac:(lia)).
  pose proof (Z.mod_pos_bound w 256 ltac:(lia)). pose proof (Z.mod_pos_bound (w / 256) m Hm).
  symmetry. apply (Z.mod_unique_pos w (256 * m) ((w / 256) / m)); nia.
Qed.

Lemma le_value_bytes_from (n : nat) : forall (k : nat) (v : Z), 0 <= v ->
  Keccak.le_value (map (fun i => Z.land (Z.shiftr v (8 * Z.of_nat i)) 255) (seq k n)) =
  (v / 2 ^ (8 * Z.of_nat k)) mod 2 ^ (8 * Z.of_nat n).
Proof.
  unfold Keccak.le_value.
  induction n as [|n IH]; intros k v Hv.
  - cbn [seq map fold_right]. change (8 * Z.of_nat 0) with 0.
    rewrite Z.pow_0_r, Z.mod_1_r. reflexivity.
  - cbn [seq map fold_right]. rewrite IH by exact Hv.
    rewrite Z.shiftr_div_pow2 by lia. change 255 with (Z.ones 8). rewrite Z.land_ones by lia.
    assert (E : v / 2 ^ (8 * Z.of_nat (S k)) = v / 2 ^ (8 * Z.of_nat k) / 256).
    { rewrite Z.div_div by lia. f_equal.
      change 256 with (2 ^ 8). rewrite <- Z.pow_add_r by lia. f_equal. lia. }
    assert (P : 2 ^ (8 * Z.of_nat (S n)) = 256 * 2 ^ (8 * Z.of_nat n)).
    { change 256 with (2 ^ 8). rewrite <- Z.pow_add_r by lia. f_equal. lia. }
    rewrite E, P, mod_mul_split by lia. reflexivity.
Qed.

Lemma u64_le_bytes_length (v : Z) : length (u64_le_bytes v) = 8%nat.
Proof. unfold u64_le_bytes. rewrite length_map, length_seq. reflexivity. Qed.

Lemma le_value_u64_le_bytes (v : Z) :
  0 <= v < 2 ^ 64 -> Keccak.le_value (u64_le_bytes v) = v.
Proof.
  intros Hv. unfold u64_le_bytes. rewrite le_value_bytes_from by lia.
  change (8 * Z.of_nat 0) with 0. change (8 * Z.of_nat 8) with 64.
  rewrite Z.pow_0_r, Z.div_1_r. apply Z.mod_small. exact Hv.
Qed.

(** X14: [to_le_bytes] on a u64 gives 8 bytes, and reading them back
    little-endian gives the value: the encoding of the index and the
    amount in a leaf loses nothing. *)
Theorem u64_le_bytes_roundtrip (v : Z) :
  0 <= v < 2 ^ 64 ->
  length (u64_le_bytes v) = 8%nat /\ Keccak.le_value (u64_le_bytes v) = v.
Proof.
  intros Hv. split; [apply u64_le_bytes_length | apply le_value_u64_le_bytes; exact Hv].
Qed.

Lemma u64_le_bytes_roundtrip_witness :
  (0 <= 18446744073709551615 < 2 ^ 64) /\
  length (u64_le_bytes 18446744073709551615) = 8%nat /\
  Keccak.le_value (u64_le_bytes 18446744073709551615) = 18446744073709551615.
Proof.
  assert (H : 0 <= 18446744073709551615 < 2 ^ 64) by lia.
  split; [exact H|]. exact (u64_le_bytes_roundtrip _ H).
Defined.

(** X15: the byte string hashed by [keccak_leaf] determines its inputs:
    for u64 indices and amounts and wallets of one length, equal
    preimages come from the same index, wallet and amount. *)
Theorem leaf_preimage_injective (index index' amount amount' : Z) (wallet wallet' : Pubkey) :
  0 <= index < 2 ^ 64 -> 0 <= index' < 2 ^ 64 ->
  0 <= amount < 2 ^ 64 -> 0 <= amount' < 2 ^ 64 ->
  length wallet = length wallet' ->
  u64_le_bytes index ++ wallet ++ u64_le_bytes amount =
  u64_le_bytes index' ++ wallet' ++ u64_le_bytes amount' ->
  index = index' /\ wallet = wallet' /\ amount = amount'.
Proof.
  intros Hi Hi' Ha Ha' Hw H.
  apply app_inj_1 in H as [E1 H]; [|rewrite !u64_le_bytes_length; reflexivity].
  apply app_inj_1 in H as [E2 E3]; [|exact Hw].
  split; [|split; [exact E2|]].
  - rewrite <- (le_value_u64_le_bytes index Hi), <- (le_value_u64_le_bytes index' Hi'), E1.
    reflexivity.
  - rewrite <- (le_value_u64_le_bytes amount Ha), <- (le_value_u64_le_bytes amount' Ha'), E3.
    reflexivity.
Qed.

Lemma leaf_preimage_injective_witness :
  ((0 <= 1 < 2 ^ 64) /\ (0 <= 5 < 2 ^ 64) /\ length wallet_W = length wallet_W /\
   u64_le_bytes 1 ++ wallet_W ++ u64_le_bytes 5 = u64_le_bytes 1 ++ wallet_W ++ u64_le_bytes 5) /\
  (1 = 1 /\ wallet_W = wallet_W /\ 5 = 5).
Proof.
  assert (Hi : 0 <= 1 < 2 ^ 64) by lia. assert (Ha : 0 <= 5 < 2 ^ 64) by lia.
  split; [split; [exact Hi | split; [exact Ha | split; reflexivity]]|].
  exact (leaf_preimage_injective 1 1 5 5 wallet_W wallet_W Hi Hi Ha Ha eq_refl eq_refl).
Defined.

(** X16: the residue bitmaps are shared by all indices: after a
    successful claim of [index], a claim of any index [j] that agrees
    with it modulo one of the three moduli fails with AlreadyClaimed,
    even with a valid proof for [j] under the same root. *)
Theorem claim_residue_collision_rejected (now : Z) (wallet : Pubkey) (transfer_ok : bool)
    (st st' : State) (index amount : Z) (proof : list Hash32)
    (j : Z) (wallet' : Pubkey) (transfer_ok' : bool) (amount' : Z) (proof' : list Hash32) :
  arrays_sized st ->
  step (Some st) (IClaim now wallet transfer_ok index amount proof) = (Ok tt, Some st') ->
  j mod MODULI0 = index mod MODULI0 \/ j mod MODULI1 = index mod MODULI1 \/
    j mod MODULI2 = index mod MODULI2 ->
  j < total_claims st ->
  verify_merkle_proof (keccak_leaf j wallet' amount') proof' (merkle_root st) = true ->
  step (Some st') (IClaim now wallet' transfer_ok' j amount' proof') =
    (Err AlreadyClaimed, Some st').
Proof.
  intros Hs H1 Hj Hjt Hv.
  assert (Hc : claim_closed st = false /\ window_open st now = true).
  { revert H1. rewrite step_claim, claim_unfold.
    destruct (claim_closed st); [intros H; discriminate H|].
    destruct (window_open st now); [|intros H; discriminate H].
    intros _. split; reflexivity. }
  destruct Hc as [Hc Hw].
  apply step_claim_ok in H1. subst st'.
  assert (Hm : is_member (mark_residues st index) j = true).
  { rewrite (mark_residues_member_eq st index j Hs).
    destruct Hj as [E|[E|E]]; rewrite E, Z.eqb_refl;
      repeat (rewrite orb_true_r || rewrite orb_true_l); reflexivity. }
  assert (Hlt : (j <? total_claims st) = true) by (apply Z.ltb_lt; exact Hjt).
  rewrite step_claim, claim_unfold, Hm.
  unfold window_open in *. mark_fields.
  rewrite Hc, Hw, Hlt, Hv. reflexivity.
Qed.

Lemma claim_residue_collision_rejected_witness :
  let leaf1 := keccak_leaf 1 wallet_W 5 in
  let leaf972 := keccak_leaf 972 wallet_W 5 in
  let st := set_merkle_root (set_total_claims sample_ledger 1000) (fold_proof leaf1 [leaf972]) in
  (arrays_sized st /\
   step (Some st) (IClaim 50 wallet_W true 1 5 [leaf972]) = (Ok tt, Some (mark_residues st 1)) /\
   (972 mod MODULI0 = 1 mod MODULI0 \/ 972 mod MODULI1 = 1 mod MODULI1 \/
    972 mod MODULI2 = 1 mod MODULI2) /\
   972 < total_claims st /\
   verify_merkle_proof leaf972 [leaf1] (merkle_root st) = true) /\
  step (Some (mark_residues st 1)) (IClaim 50 wallet_W true 972 5 [leaf1]) =
    (Err AlreadyClaimed, Some (mark_residues st 1)).
Proof.
  intros leaf1 leaf972 st.
  assert (Hs : arrays_sized st) by (repeat split).
  assert (H1 : step (Some st) (IClaim 50 wallet_W true 1 5 [leaf972]) =
               (Ok tt, Some (mark_residues st 1))) by (vm_compute; reflexivity).
  assert (Hj : 972 mod MODULI0 = 1 mod MODULI0 \/ 972 mod MODULI1 = 1 mod MODULI1 \/
               972 mod MODULI2 = 1 mod MODULI2) by (left; reflexivity).
  assert (Ht : 972 < total_claims st) by (vm_compute; reflexivity).
  assert (Hv : verify_merkle_proof leaf972 [leaf1] (merkle_root st) = true)
    by (vm_compute; reflexivity).
  split; [repeat split; assumption|].
  exact (claim_residue_collision_rejected 50 wallet_W true st (mark_residues st 1) 1 5 [leaf972]
           972 wallet_W true 5 [leaf1] Hs H1 Hj Ht Hv).
Defined.
